(** * The Solidity parser wrapper: parse, analyse, query diagnostics

    A shallow embedding of [libs/shadow/src/solidity-parser-wrapper.cpp]:
    the C interface ([sol_parser_parse], [sol_analyze_parsed_ast_json],
    [sol_parser_get_errors]) and the analysis pipeline [analyzeSourceUnit]
    that sequences the passes of libsolidity.

    The passes themselves (parser, JSON codec, resolver, checkers, call-graph
    builder) live in libsolidity and liblangutil, outside this repository's
    sources; they are the fields of the class [Solidity] below and every
    theorem holds for all of their implementations.

    Conventions.  A pass is a function of the state it is handed (the AST,
    the diagnostic list, the analyser objects) that returns a value or
    throws.  Constructors that only store their arguments, the accessors of
    a diagnostic ([type], [what], [formatErrorType]) and the allocation of
    the buffer returned to the caller neither fail nor throw.  The EVM
    version is the default one throughout and is left out.

    Two neighbours of the wrapper are embedded beside it: the earlier
    wrapper [src/solidity-parser-wrapper.cpp], which parses and prints
    diagnostics without the analysis, and the JavaScript binding
    [libs/shadow/api_emscripten.cpp], whose Zig side is the class [Zig]. *)

From Stdlib Require Import String Ascii List Bool Lia.
From stdpp Require Import base option list strings gmap.

Set Default Proof Using "Type".

(** ** Exceptions and handlers *)

(** What a C++ [throw] can carry, as far as the handlers of the wrapper tell
    apart: [langutil::FatalError] (which derives, through [util::Exception],
    from [std::exception]), any other class derived from [std::exception],
    and anything else. *)
Inductive exn : Type :=
  | FatalError
  | StdException
  | NonStdException.

(** [catch (FatalError const&)] *)
Definition is_FatalError (e : exn) : bool :=
  match e with FatalError => true | _ => false end.

(** [catch (std::exception const&)] *)
Definition is_std_exception (e : exn) : bool :=
  match e with FatalError | StdException => true | NonStdException => false end.

(** [catch (...)] *)
Definition is_anything (e : exn) : bool := true.

Inductive result (A : Type) : Type :=
  | Ret (a : A)
  | Throw (e : exn).
Arguments Ret {A} a.
Arguments Throw {A} e.

(** ** Diagnostics *)

(** [langutil::Error]: its type tag and its message ([what()]).  The tag
    enumeration is liblangutil's. *)
Record Error (ErrorType : Type) : Type := mkError {
  type : ErrorType;
  what : string
}.
Arguments mkError {ErrorType} type what.
Arguments type {ErrorType} e.
Arguments what {ErrorType} e.

(** [CompilerStack::State], as far as the exporter is given it. *)
Inductive State : Type :=
  | Parsed
  | AnalysisSuccessful.

(** ** The calls into libsolidity, by name *)

Inductive call : Type :=
  | Json_parse                     (* Json::parse *)
  | JsonToSourceUnit               (* ASTJsonImporter::jsonToSourceUnit *)
  | ParserParse                    (* Parser::parse *)
  | ToJson                         (* ASTJsonExporter::toJson *)
  | JsonPrettyPrint                (* util::jsonPrettyPrint *)
  | AssignScopes                   (* Scoper::assignScopes *)
  | CheckSyntax                    (* SyntaxChecker::checkSyntax *)
  | NewGlobalContext               (* std::make_shared<GlobalContext> *)
  | NewNameAndTypeResolver         (* the constructor of NameAndTypeResolver *)
  | RegisterDeclarations           (* NameAndTypeResolver::registerDeclarations *)
  | PerformImports                 (* NameAndTypeResolver::performImports *)
  | WarnHomonymDeclarations        (* NameAndTypeResolver::warnHomonymDeclarations *)
  | ParseDocStrings                (* DocStringTagParser::parseDocStrings *)
  | ResolveNamesAndTypes           (* NameAndTypeResolver::resolveNamesAndTypes *)
  | DeclarationTypeCheck           (* DeclarationTypeChecker::check *)
  | ValidateDocStringsUsingTypes   (* DocStringTagParser::validateDocStringsUsingTypes *)
  | ContractLevelCheck             (* ContractLevelChecker::check *)
  | CheckTypeRequirements          (* TypeChecker::checkTypeRequirements *)
  | AnalyseDocStrings              (* DocStringAnalyser::analyseDocStrings *)
  | PostTypeCheck                  (* PostTypeChecker::check *)
  | PostTypeFinalize               (* PostTypeChecker::finalize *)
  | BuildCallGraphs                (* the loop over FunctionCallGraphBuilder's two graphs *)
  | PostTypeContractLevelCheck.    (* PostTypeContractLevelChecker::check *)

Global Instance call_eq_dec : EqDecision call.
Proof. solve_decision. Defined.

(** How a call ended: it returned without reporting failure ([true], a
    non-null pointer, or a [void] return), it reported failure ([false] or a
    null pointer), or it threw. *)
Inductive outcome : Type :=
  | Done
  | Failed
  | Threw (e : exn).

Definition outcome_of_bool (b : bool) : outcome := if b then Done else Failed.
Definition outcome_of_void (_ : unit) : outcome := Done.
Definition outcome_of_value {A} (_ : A) : outcome := Done.
Definition outcome_of_pointer {A} (p : option A) : outcome :=
  match p with Some _ => Done | None => Failed end.

(** One entry of the run's history: the call, how it ended, and the
    diagnostic list as the call left it. *)
Record event (ErrorType : Type) : Type := Event {
  ev_call : call;
  ev_outcome : outcome;
  ev_errors : list (Error ErrorType)
}.
Arguments Event {ErrorType} ev_call ev_outcome ev_errors.
Arguments ev_call {ErrorType} e.
Arguments ev_outcome {ErrorType} e.
Arguments ev_errors {ErrorType} e.

(** ** The types and operations of libsolidity the wrapper uses *)

Class SolidityTypes : Type := {
  ErrorType : Type;           (* langutil::Error::Type *)
  Json : Type;                (* solidity::Json *)
  SourceUnit : Type;          (* frontend::SourceUnit, with the annotations of its nodes *)
  ContractDefinition : Type;  (* a contract node of a source unit *)
  CallGraph : Type;           (* frontend::CallGraph *)
  ErrorReporter : Type;       (* langutil::ErrorReporter, apart from the list it refers to *)
  Locals : Type               (* the analyser objects local to analyzeSourceUnit *)
}.

Section Types.
Context `{SolidityTypes}.

(** [langutil::ErrorList] *)
Definition ErrorList : Type := list (Error ErrorType).

(** What [analyzeSourceUnit] works on: the AST it was handed ([_ast]), the
    list it was handed ([_errors]) and its local objects ([errorReporter],
    [globalContext], [resolver] and the checkers). *)
Record Frame : Type := mkFrame {
  f_ast : SourceUnit;
  f_errors : ErrorList;
  f_locals : Locals
}.

(** [struct SolParserContext] *)
Record SolParserContext : Type := mkContext {
  errors : ErrorList;
  errorList : ErrorList;
  errorReporter : ErrorReporter
}.

End Types.

Class Solidity `{SolidityTypes} : Type := {
  (* liblangutil *)
  formatErrorType : ErrorType -> string;
  newErrorReporter : ErrorReporter;
  (* the objects analyzeSourceUnit constructs *)
  newLocals : Locals;
  (* parsing and the JSON codec; none of them is handed the context *)
  Parser_parse : string -> string -> ErrorReporter -> ErrorList ->
                 result (option SourceUnit) * (ErrorReporter * ErrorList);
  parse_json : string -> result Json;
  jsonToSourceUnit : gmap string Json -> result (gmap string (option SourceUnit));
  toJson : State -> gmap string nat -> SourceUnit -> result Json;
  jsonPrettyPrint : Json -> result string;
  (* the two constructors that do work: the built-in declarations, and
     their registration in the global scope *)
  makeGlobalContext : Locals -> result unit * Locals;
  makeNameAndTypeResolver : Locals -> ErrorList -> result unit * (Locals * ErrorList);
  (* passes without an error reporter *)
  assignScopes : SourceUnit -> result unit * SourceUnit;
  contracts : SourceUnit -> list ContractDefinition;
  buildCreationGraph : SourceUnit -> ContractDefinition -> result CallGraph;
  buildDeployedGraph : SourceUnit -> ContractDefinition -> CallGraph -> result CallGraph;
  set_creationCallGraph : ContractDefinition -> CallGraph -> SourceUnit -> SourceUnit;
  set_deployedCallGraph : ContractDefinition -> CallGraph -> SourceUnit -> SourceUnit;
  (* passes that report through the error reporter *)
  checkSyntax : Frame -> result bool * Frame;
  registerDeclarations : Frame -> result bool * Frame;
  performImports : gmap string SourceUnit -> Frame -> result bool * Frame;
  warnHomonymDeclarations : Frame -> result unit * Frame;
  parseDocStrings : Frame -> result bool * Frame;
  resolveNamesAndTypes : Frame -> result bool * Frame;
  declarationTypeCheck : Frame -> result bool * Frame;
  validateDocStringsUsingTypes : Frame -> result bool * Frame;
  contractLevelCheck : Frame -> result bool * Frame;
  checkTypeRequirements : Frame -> result bool * Frame;
  analyseDocStrings : Frame -> result bool * Frame;
  postTypeCheck : Frame -> result bool * Frame;
  postTypeFinalize : Frame -> result bool * Frame;
  postTypeContractLevelCheck : Frame -> result bool * Frame
}.

(** ** Computations: state, exceptions and a history of calls *)

Section Monad.
Context `{SolidityTypes}.

Definition M (S A : Type) : Type := S -> result A * S * list (event ErrorType).

Definition ret {S A} (a : A) : M S A := fun s => (Ret a, s, []).

Definition bind {S A B} (m : M S A) (k : A -> M S B) : M S B :=
  fun s =>
    match m s with
    | (Ret a, s1, t1) => let '(r, s2, t2) := k a s1 in (r, s2, t1 ++ t2)
    | (Throw e, s1, t1) => (Throw e, s1, t1)
    end.

(** [try { m } catch (...) { ... }]: [handler e] is the first matching
    handler's body, or [None] when no handler matches and [e] propagates. *)
Definition try_catch {S A} (m : M S A) (handler : exn -> option (M S A)) : M S A :=
  fun s =>
    match m s with
    | (Ret a, s1, t1) => (Ret a, s1, t1)
    | (Throw e, s1, t1) =>
        match handler e with
        | Some k => let '(r, s2, t2) := k s1 in (r, s2, t1 ++ t2)
        | None => (Throw e, s1, t1)
        end
    end.

Definition modify {S} (f : S -> S) : M S unit := fun s => (Ret tt, f s, []).

(** A call into libsolidity, entered in the history. *)
Definition invoke {S A} (errs : S -> ErrorList) (c : call) (oc : A -> outcome)
    (f : S -> result A * S) : M S A :=
  fun s =>
    let '(r, s1) := f s in
    (r, s1, [Event c (match r with Ret a => oc a | Throw e => Threw e end) (errs s1)]).

End Monad.

Notation "'let*' x ':=' m 'in' k" := (bind m (fun x => k))
  (at level 10, x name, m at level 100, k at level 200).

(** ** The analysis pipeline *)

Section Wrapper.
Context `{Solidity}.

(** A pass that reports through [errorReporter]. *)
Definition pass {A} (c : call) (oc : A -> outcome) (f : Frame -> result A * Frame)
  : M Frame A :=
  invoke f_errors c oc f.

(** A pass that is handed the AST only. *)
Definition on_ast {A} (f : SourceUnit -> result A * SourceUnit) (fr : Frame)
  : result A * Frame :=
  let '(r, a) := f (f_ast fr) in (r, mkFrame a (f_errors fr) (f_locals fr)).

(** A constructor that is handed neither the AST nor the error reporter. *)
Definition on_locals {A} (f : Locals -> result A * Locals) (fr : Frame)
  : result A * Frame :=
  let '(r, l) := f (f_locals fr) in (r, mkFrame (f_ast fr) (f_errors fr) l).

(** A constructor that is handed the error reporter but not the AST. *)
Definition on_reporter {A}
    (f : Locals -> ErrorList -> result A * (Locals * ErrorList)) (fr : Frame)
  : result A * Frame :=
  let '(r, (l, el)) := f (f_locals fr) (f_errors fr) in (r, mkFrame (f_ast fr) el l).

(** The loop over the contracts of [_ast]: for each contract the creation
    graph is built and stored, then the deployed graph is built from it and
    stored.  A throw leaves the loop. *)
Fixpoint assignCallGraphs (cs : list ContractDefinition) (_ast : SourceUnit)
  : result unit * SourceUnit :=
  match cs with
  | [] => (Ret tt, _ast)
  | contract :: rest =>
      match buildCreationGraph _ast contract with
      | Throw e => (Throw e, _ast)
      | Ret creation =>
          let _ast := set_creationCallGraph contract creation _ast in
          match buildDeployedGraph _ast contract creation with
          | Throw e => (Throw e, _ast)
          | Ret deployed =>
              let _ast := set_deployedCallGraph contract deployed _ast in
              assignCallGraphs rest _ast
          end
      end
  end.

(** The [try] block of [analyzeSourceUnit].  [noErrors] is rebound where the
    source assigns it; an early [return false] is the [else]-less branch. *)
Definition analyzeSourceUnit_try : M Frame bool :=
  let noErrors := true in
  let* _ := pass AssignScopes outcome_of_void (on_ast assignScopes) in
  let* ok := pass CheckSyntax outcome_of_bool checkSyntax in
  let noErrors := if negb ok then false else noErrors in
  let* _ := pass NewGlobalContext outcome_of_void (on_locals makeGlobalContext) in
  let* _ := pass NewNameAndTypeResolver outcome_of_void
              (on_reporter makeNameAndTypeResolver) in
  let* ok := pass RegisterDeclarations outcome_of_bool registerDeclarations in
  if negb ok then ret false else
  let* ok := pass PerformImports outcome_of_bool
               (fun fr => performImports {[ "Contract.sol"%string := f_ast fr ]} fr) in
  if negb ok then ret false else
  let* _ := pass WarnHomonymDeclarations outcome_of_void warnHomonymDeclarations in
  let* ok := pass ParseDocStrings outcome_of_bool parseDocStrings in
  let noErrors := if negb ok then false else noErrors in
  let* ok := pass ResolveNamesAndTypes outcome_of_bool resolveNamesAndTypes in
  if negb ok then ret false else
  let* ok := pass DeclarationTypeCheck outcome_of_bool declarationTypeCheck in
  if negb ok then ret false else
  let* ok := pass ValidateDocStringsUsingTypes outcome_of_bool validateDocStringsUsingTypes in
  let noErrors := if negb ok then false else noErrors in
  let* ok := pass ContractLevelCheck outcome_of_bool contractLevelCheck in
  let noErrors := if negb ok then false else noErrors in
  let* ok := pass CheckTypeRequirements outcome_of_bool checkTypeRequirements in
  let noErrors := if negb ok then false else noErrors in
  let* noErrors :=
    if noErrors then
      let* ok := pass AnalyseDocStrings outcome_of_bool analyseDocStrings in
      ret (if negb ok then false else noErrors)
    else ret noErrors in
  let* noErrors :=
    if noErrors then
      let* ok := pass PostTypeCheck outcome_of_bool postTypeCheck in
      let noErrors := if negb ok then false else noErrors in
      let* ok := pass PostTypeFinalize outcome_of_bool postTypeFinalize in
      ret (if negb ok then false else noErrors)
    else ret noErrors in
  let* _ :=
    if noErrors then
      pass BuildCallGraphs outcome_of_void
           (on_ast (fun _ast => assignCallGraphs (contracts _ast) _ast))
    else ret tt in
  let* noErrors :=
    if noErrors then
      let* ok := pass PostTypeContractLevelCheck outcome_of_bool postTypeContractLevelCheck in
      ret (if negb ok then false else noErrors)
    else ret noErrors in
  ret noErrors.

(** The handlers of [analyzeSourceUnit]: [FatalError] and [std::exception],
    both returning [false]. *)
Definition analyzeSourceUnit_catch (e : exn) : option (M Frame bool) :=
  if is_FatalError e then Some (ret false)
  else if is_std_exception e then Some (ret false)
  else None.

(** [analyzeSourceUnit(_ast, _errors)]: [_ast] and [_errors] are references,
    so what the passes did to them is handed back, also on a failure. *)
Definition analyzeSourceUnit (_ast : SourceUnit) (_errors : ErrorList)
  : result bool * (SourceUnit * ErrorList) * list (event ErrorType) :=
  let '(r, fr, t) :=
    try_catch analyzeSourceUnit_try analyzeSourceUnit_catch
              (mkFrame _ast _errors newLocals) in
  (r, (f_ast fr, f_errors fr), t).

(** ** The C interface *)

(** A handle is a pointer to a context: [None] is the null pointer, and a
    call hands back the context as it left it.  The strings handed in are
    pointers too. *)
Definition handle : Type := option SolParserContext.

(** What a call of the interface gives: the value returned ([Ret None] is a
    null return) or the exception that escapes to the caller, the context
    afterwards, and the history of the calls made into libsolidity. *)
Definition api (A : Type) : Type := result A * handle * list (event ErrorType).

(** [sol_parser_create] *)
Definition sol_parser_create : handle := Some (mkContext [] [] newErrorReporter).

(** [ctx->errorList.clear()] *)
Definition clear_errorList : M SolParserContext unit :=
  modify (fun c => mkContext (errors c) [] (errorReporter c)).

(** A call that is not handed the context. *)
Definition pure_call {A} (c : call) (f : result A) : M SolParserContext A :=
  invoke errorList c outcome_of_value (fun ctx => (f, ctx)).

(** The copy of a [std::string] into a buffer the caller owns
    ([malloc], then [strcpy]).  The allocation is taken to succeed. *)
Definition c_str (s : string) : option string := Some s.

(** The [try] block of [sol_parser_parse]. *)
Definition sol_parser_parse_try (source source_name : string)
  : M SolParserContext (option string) :=
  let* _ := clear_errorList in
  let sourceStr := source in
  let nameStr := source_name in
  let* ast := invoke errorList ParserParse outcome_of_pointer
                (fun c => let '(r, (rep, el)) :=
                            Parser_parse sourceStr nameStr (errorReporter c) (errorList c) in
                          (r, mkContext (errors c) el rep)) in
  match ast with
  | None => ret None
  | Some ast =>
      let sourceIndices : gmap string nat := {[ nameStr := 0 ]} in
      let* json := pure_call ToJson (toJson Parsed sourceIndices ast) in
      let* result := pure_call JsonPrettyPrint (jsonPrettyPrint json) in
      ret (c_str result)
  end.

(** The handlers of [sol_parser_parse]: [FatalError] and [std::exception]. *)
Definition sol_parser_parse_catch (e : exn) : option (M SolParserContext (option string)) :=
  if is_FatalError e then Some (ret None)
  else if is_std_exception e then Some (ret None)
  else None.

Definition sol_parser_parse (ctx : handle) (source source_name : option string)
  : api (option string) :=
  match ctx, source, source_name with
  | Some c, Some source, Some source_name =>
      let '(r, c1, t) :=
        try_catch (sol_parser_parse_try source source_name) sol_parser_parse_catch c in
      (r, Some c1, t)
  | _, _, _ => (Ret None, ctx, [])
  end.

(** The call of [analyzeSourceUnit] on the imported AST and [ctx->errorList],
    as a step of the caller. *)
Definition call_analyzeSourceUnit (ast : SourceUnit) : M SolParserContext (bool * SourceUnit) :=
  fun c =>
    let '(r, (ast1, el), t) := analyzeSourceUnit ast (errorList c) in
    (match r with Ret ok => Ret (ok, ast1) | Throw e => Throw e end,
     mkContext (errors c) el (errorReporter c), t).

(** [asts.empty() || !asts[nameStr]], and the pointer when that is false. *)
Definition imported (asts : gmap string (option SourceUnit)) (nameStr : string)
  : option SourceUnit :=
  if (size asts =? 0)%nat then None
  else match asts !! nameStr with
       | Some (Some ast) => Some ast
       | _ => None
       end.

(** The [try] block of [sol_analyze_parsed_ast_json]. *)
Definition sol_analyze_parsed_ast_json_try (parsed_ast_json source_name : string)
  : M SolParserContext (option string) :=
  let* _ := clear_errorList in
  let nameStr := source_name in
  let* astJson := pure_call Json_parse (parse_json parsed_ast_json) in
  let sources : gmap string Json := {[ nameStr := astJson ]} in
  let* asts := pure_call JsonToSourceUnit (jsonToSourceUnit sources) in
  match imported asts nameStr with
  | None => ret None
  | Some ast =>
      let* analysed := call_analyzeSourceUnit ast in
      if negb (fst analysed) then ret None else
      let ast := snd analysed in
      let sourceIndices : gmap string nat := {[ nameStr := 0 ]} in
      let* analyzedJson := pure_call ToJson (toJson AnalysisSuccessful sourceIndices ast) in
      let* result := pure_call JsonPrettyPrint (jsonPrettyPrint analyzedJson) in
      ret (c_str result)
  end.

(** The handlers of [sol_analyze_parsed_ast_json]: [std::exception] and
    [...]. *)
Definition sol_analyze_parsed_ast_json_catch (e : exn)
  : option (M SolParserContext (option string)) :=
  if is_std_exception e then Some (ret None)
  else if is_anything e then Some (ret None)
  else None.

Definition sol_analyze_parsed_ast_json (ctx : handle)
    (parsed_ast_json source_name : option string) : api (option string) :=
  match ctx, parsed_ast_json, source_name with
  | Some c, Some parsed_ast_json, Some source_name =>
      let '(r, c1, t) :=
        try_catch (sol_analyze_parsed_ast_json_try parsed_ast_json source_name)
                  sol_analyze_parsed_ast_json_catch c in
      (r, Some c1, t)
  | _, _, _ => (Ret None, ctx, [])
  end.

(** The line feed the stream is given after each diagnostic. *)
Definition newline : string := String "010"%char EmptyString.

(** [oss << formatErrorType(error->type()) << ": " << error->what() << "\n"] *)
Definition put_error (oss : string) (error : Error ErrorType) : string :=
  (((oss +:+ formatErrorType (type error)) +:+ ": ") +:+ what error) +:+ newline.

(** [sol_parser_get_errors]: it has no [try]; formatting a tag, reading a
    message and writing to the stream are total here. *)
Definition sol_parser_get_errors (ctx : handle) : option string :=
  match ctx with
  | None => None
  | Some c =>
      let oss := fold_left put_error (errorList c) EmptyString in
      let result := oss in
      if (String.length result =? 0)%nat then None else c_str result
  end.

End Wrapper.

(** ** The stage-failure policy, in the vocabulary of the specification *)

Inductive tier : Type :=
  | Unconditional        (* cannot report failure *)
  | AbortOnFailure
  | AccumulateOnFailure
  | Gated
  | Codec.               (* parsing, import and export, outside the pipeline *)

Definition tier_of (c : call) : tier :=
  match c with
  | AssignScopes | NewGlobalContext | NewNameAndTypeResolver
  | WarnHomonymDeclarations => Unconditional
  | RegisterDeclarations | PerformImports
  | ResolveNamesAndTypes | DeclarationTypeCheck => AbortOnFailure
  | CheckSyntax | ParseDocStrings | ValidateDocStringsUsingTypes
  | ContractLevelCheck | CheckTypeRequirements => AccumulateOnFailure
  | AnalyseDocStrings | PostTypeCheck | PostTypeFinalize
  | BuildCallGraphs | PostTypeContractLevelCheck => Gated
  | Json_parse | JsonToSourceUnit | ParserParse | ToJson | JsonPrettyPrint => Codec
  end.

(** The calls [analyzeSourceUnit] makes when nothing fails, in order. *)
Definition pipeline : list call :=
  [ AssignScopes; CheckSyntax; NewGlobalContext; NewNameAndTypeResolver;
    RegisterDeclarations; PerformImports;
    WarnHomonymDeclarations; ParseDocStrings; ResolveNamesAndTypes;
    DeclarationTypeCheck; ValidateDocStringsUsingTypes; ContractLevelCheck;
    CheckTypeRequirements; AnalyseDocStrings; PostTypeCheck; PostTypeFinalize;
    BuildCallGraphs; PostTypeContractLevelCheck ].

(** The accumulate-tier calls, in order. *)
Definition accumulate_tier : list call :=
  [ CheckSyntax; ParseDocStrings; ValidateDocStringsUsingTypes;
    ContractLevelCheck; CheckTypeRequirements ].

Definition call_eqb (c c' : call) : bool := bool_decide (c = c').

Definition is_done (o : outcome) : bool :=
  match o with Done => true | _ => false end.

Definition is_failed (o : outcome) : bool :=
  match o with Failed => true | _ => false end.

Definition is_tier (k : tier) (c : call) : bool :=
  match k, tier_of c with
  | Unconditional, Unconditional | AbortOnFailure, AbortOnFailure
  | AccumulateOnFailure, AccumulateOnFailure | Gated, Gated | Codec, Codec => true
  | _, _ => false
  end.

(** ** Decidable readings of a history *)

Section History.
Context {K : Type}.
Implicit Types (e : event K) (t : list (event K)).

(** An abort-tier call reported failure. *)
Definition aborted e : bool :=
  is_tier AbortOnFailure (ev_call e) && is_failed (ev_outcome e).

(** An accumulate-tier call reported failure. *)
Definition degraded e : bool :=
  is_tier AccumulateOnFailure (ev_call e) && is_failed (ev_outcome e).

(** A call threw. *)
Definition faulted e : bool :=
  match ev_outcome e with Threw _ => true | _ => false end.

(** The call [c] was made and did not end [Done]. *)
Definition failed_at (c : call) e : bool :=
  call_eqb (ev_call e) c && is_failed (ev_outcome e).

(** Every entry that satisfies [p] is the last one. *)
Fixpoint last_if (p : event K -> bool) t : bool :=
  match t with
  | [] => true
  | e :: rest =>
      if p e then match rest with [] => true | _ => false end
      else last_if p rest
  end.

(** An entry may stand before a gated call: it ended [Done], or it is the
    failed [PostTypeChecker::check] before its own [finalize]. *)
Definition lets_pass (c : call) e : bool :=
  is_done (ev_outcome e)
  || (call_eqb (ev_call e) PostTypeCheck && call_eqb c PostTypeFinalize).

(** Every gated call comes after entries that let it pass; [before] is the
    history so far, latest first. *)
Fixpoint gates_hold (before : list (event K)) t : bool :=
  match t with
  | [] => true
  | e :: rest =>
      (if is_tier Gated (ev_call e) then forallb (lets_pass (ev_call e)) before else true)
      && gates_hold (e :: before) rest
  end.

(** A [performImports] that ended [Done] is followed at once by
    [warnHomonymDeclarations]. *)
Fixpoint homonyms_follow_imports t : bool :=
  match t with
  | [] => true
  | e :: rest =>
      (if call_eqb (ev_call e) PerformImports && is_done (ev_outcome e)
       then match rest with
            | e' :: _ => call_eqb (ev_call e') WarnHomonymDeclarations
            | [] => false
            end
       else true)
      && homonyms_follow_imports rest
  end.

Definition all_done t : bool := forallb (fun e => is_done (ev_outcome e)) t.

(** The call [c] was made and ended [Done]. *)
Definition completed (c : call) t : bool :=
  existsb (fun e => call_eqb (ev_call e) c && is_done (ev_outcome e)) t.

(** The calls of tier [k] that were made, in order. *)
Definition calls_of_tier (k : tier) t : list call :=
  filter (fun c => is_tier k c = true) (map ev_call t).

(** The diagnostic list as the last call left it; [d] when no call was made. *)
Definition last_errors (d : list (Error K)) t : list (Error K) :=
  fold_left (fun _ e => ev_errors e) t d.

(** No call is made twice. *)
Definition calls_once t : bool := bool_decide (NoDup (map ev_call t)).

(** The call [c] never reports failure. *)
Definition never_fails (c : call) t : bool :=
  forallb (fun e => negb (failed_at c e)) t.

(** Once an accumulate-tier call has reported failure, no gated call is
    made at all. *)
Definition degraded_skips_gated t : bool :=
  implb (existsb degraded t)
        (forallb (fun e => negb (is_tier Gated (ev_call e))) t).

(** When the pipeline was entered and neither an abort-tier failure nor a
    throw ended it, all the accumulate-tier calls were made, in order. *)
Definition accumulate_tier_runs t : bool :=
  implb (existsb (fun e => negb (is_tier Codec (ev_call e))) t
         && negb (existsb aborted t) && negb (existsb faulted t))
        (bool_decide (calls_of_tier AccumulateOnFailure t = accumulate_tier)).

(** Every entry of the call [c] shows a diagnostic list that is not empty. *)
Definition leaves_diagnostics (c : call) t : bool :=
  forallb (fun e => implb (call_eqb (ev_call e) c)
                          (match ev_errors e with [] => false | _ :: _ => true end)) t.

(** Only the call [c] changes the diagnostic list: every other entry shows
    the list of the entry before it ([d] before the first). *)
Fixpoint only_producer (c : call) (d : list (Error K)) t : Prop :=
  match t with
  | [] => True
  | e :: rest => (ev_call e <> c -> ev_errors e = d) /\ only_producer c (ev_errors e) rest
  end.

End History.

(** ** A scripted stand-in for libsolidity

    An instance of [Solidity] whose passes do what a script says: for each
    call, how it ends and which diagnostics it appends.  It serves to run the
    wrapper on concrete inputs. *)

Module Scripted.

Inductive Kind : Type :=
  | Warning
  | DeclarationError
  | TypeError
  | SyntaxError.

Definition formatKind (k : Kind) : string :=
  match k with
  | Warning => "Warning"
  | DeclarationError => "DeclarationError"
  | TypeError => "TypeError"
  | SyntaxError => "SyntaxError"
  end.

(** What a call does: how it ends, and the diagnostics it appends. *)
Definition Script : Type := call -> outcome * list (Error Kind).

Definition quiet : Script := fun _ => (Done, []).

(** The script, with [c] changed to end as [o] after appending [ds]. *)
Definition but (c : call) (o : outcome) (ds : list (Error Kind)) (s : Script) : Script :=
  fun c' => if call_eqb c' c then (o, ds) else s c'.

Definition shadows : Error Kind :=
  mkError Warning "This declaration shadows an existing declaration.".
Definition undeclared : Error Kind :=
  mkError DeclarationError "Undeclared identifier.".
Definition bad_assignment : Error Kind :=
  mkError TypeError "Type bool is not implicitly convertible to expected type uint256.".
Definition bad_argument : Error Kind :=
  mkError TypeError "Invalid type for argument in function call.".
Definition bad_override : Error Kind :=
  mkError TypeError "Overriding function is missing the override specifier.".
Definition missing_semicolon : Error Kind :=
  mkError SyntaxError "Expected ';' but got '}'".

(** The documents and sources the stand-in knows, by their text; any other
    text is malformed. *)
Definition scripts : list (string * Script) :=
  [ ("plain", quiet);
    ("homonym", but WarnHomonymDeclarations Done [shadows] quiet);
    ("undeclared", but ResolveNamesAndTypes Failed [undeclared] quiet);
    ("two type errors",
       but CheckTypeRequirements Failed [bad_assignment; bad_argument] quiet);
    ("bad override", but ContractLevelCheck Failed [bad_override] quiet);
    ("missing semicolon", but ParserParse Failed [missing_semicolon] quiet);
    ("odd fault", but ParserParse (Threw NonStdException) []
                    (but CheckSyntax (Threw NonStdException) [] quiet));
    ("null entry", quiet);
    ("no entry", quiet);
    ("empty map", quiet) ]%string.

Fixpoint script_of (l : list (string * Script)) (text : string) : option Script :=
  match l with
  | [] => None
  | (name, s) :: rest => if String.eqb name text then Some s else script_of rest text
  end.

Global Instance types : SolidityTypes := {|
  ErrorType := Kind;
  Json := string;
  SourceUnit := Script;
  ContractDefinition := unit;
  CallGraph := unit;
  ErrorReporter := unit;
  Locals := unit
|}.

(** The reply of the script to a call, as a value of type [A]. *)
Definition reply {A} (s : Script) (c : call) (done failed : A) : result A :=
  match fst (s c) with
  | Done => Ret done
  | Failed => Ret failed
  | Threw e => Throw e
  end.

(** A pass of the pipeline: the script is the AST's. *)
Definition scripted {A} (c : call) (done failed : A) (fr : Frame) : result A * Frame :=
  (reply (f_ast fr) c done failed,
   mkFrame (f_ast fr) (f_errors fr ++ snd (f_ast fr c)) (f_locals fr)).

Global Instance solidity : Solidity := {|
  formatErrorType := formatKind;
  newErrorReporter := tt;
  newLocals := tt;
  Parser_parse := fun source _ rep el =>
    match script_of scripts source with
    | Some s => (reply s ParserParse (Some s) None, (rep, el ++ snd (s ParserParse)))
    | None => (Throw FatalError, (rep, el ++ [missing_semicolon]))
    end;
  parse_json := fun text =>
    match script_of scripts text with
    | Some _ => Ret text
    | None => Throw StdException
    end;
  jsonToSourceUnit := fun sources =>
    Ret (map_fold (fun name text asts =>
                     if String.eqb text "empty map" then asts
                     else if String.eqb text "no entry"
                          then <[ "Other.sol"%string := Some quiet ]> asts
                     else if String.eqb text "null entry" then <[ name := None ]> asts
                     else <[ name := script_of scripts text ]> asts) ∅ sources);
  toJson := fun st _ s =>
    reply s ToJson (match st with
                    | Parsed => "{ parsed }"
                    | AnalysisSuccessful => "{ analysed }"
                    end)%string EmptyString;
  jsonPrettyPrint := fun j => Ret j;
  makeGlobalContext := fun l => (Ret tt, l);
  makeNameAndTypeResolver := fun l el => (Ret tt, (l, el));
  assignScopes := fun s => (reply s AssignScopes tt tt, s);
  contracts := fun _ => [tt];
  buildCreationGraph := fun s _ => reply s BuildCallGraphs tt tt;
  buildDeployedGraph := fun s _ _ => reply s BuildCallGraphs tt tt;
  set_creationCallGraph := fun _ _ s => s;
  set_deployedCallGraph := fun _ _ s => s;
  checkSyntax := scripted CheckSyntax true false;
  registerDeclarations := scripted RegisterDeclarations true false;
  performImports := fun _ => scripted PerformImports true false;
  warnHomonymDeclarations := scripted WarnHomonymDeclarations tt tt;
  parseDocStrings := scripted ParseDocStrings true false;
  resolveNamesAndTypes := scripted ResolveNamesAndTypes true false;
  declarationTypeCheck := scripted DeclarationTypeCheck true false;
  validateDocStringsUsingTypes := scripted ValidateDocStringsUsingTypes true false;
  contractLevelCheck := scripted ContractLevelCheck true false;
  checkTypeRequirements := scripted CheckTypeRequirements true false;
  analyseDocStrings := scripted AnalyseDocStrings true false;
  postTypeCheck := scripted PostTypeCheck true false;
  postTypeFinalize := scripted PostTypeFinalize true false;
  postTypeContractLevelCheck := scripted PostTypeContractLevelCheck true false
|}.

(** A context that holds a diagnostic of an earlier call. *)
Definition used : SolParserContext := mkContext [] [missing_semicolon] tt.

(** Analysing the document [text] as source unit [A.sol]. *)
Definition analyse (c : SolParserContext) (text : string) : api (option string) :=
  sol_analyze_parsed_ast_json (Some c) (Some text) (Some "A.sol"%string).

(** Parsing the source [text] as source unit [A.sol]. *)
Definition parse (c : SolParserContext) (text : string) : api (option string) :=
  sol_parser_parse (Some c) (Some text) (Some "A.sol"%string).

(** A context that has not been used. *)
Definition fresh : SolParserContext := mkContext [] [] tt.

Definition run_plain : api (option string) := analyse fresh "plain".
Definition run_homonym : api (option string) := analyse fresh "homonym".
Definition run_undeclared : api (option string) := analyse used "undeclared".
Definition run_two_type_errors : api (option string) := analyse used "two type errors".
Definition run_bad_override : api (option string) := analyse used "bad override".
Definition run_odd_fault : api (option string) := parse used "odd fault".

(** The parts of a run, and of its history around the entry at [n]. *)
Definition returned (x : api (option string)) : result (option string) := fst (fst x).
Definition context_after (x : api (option string)) : handle := snd (fst x).
Definition history (x : api (option string)) : list (event Kind) := snd x.
Definition entry (n : nat) (x : api (option string)) : event Kind :=
  List.nth n (history x) (Event AssignScopes Done []).
Definition entries_before (n : nat) (x : api (option string)) : list (event Kind) :=
  firstn n (history x).
Definition entries_after (n : nat) (x : api (option string)) : list (event Kind) :=
  skipn (S n) (history x).

End Scripted.

(** ** Lines of a text *)

Definition line_feed : ascii := "010"%char.

(** The lines of a text, each taken up to its line feed. *)
Fixpoint lines (s : string) : list string :=
  match s with
  | EmptyString => []
  | String c rest =>
      if Ascii.eqb c line_feed then EmptyString :: lines rest
      else match lines rest with
           | [] => [String c EmptyString]
           | l :: ls => String c l :: ls
           end
  end.

Fixpoint free_of_line_feed (s : string) : bool :=
  match s with
  | EmptyString => true
  | String c rest => negb (Ascii.eqb c line_feed) && free_of_line_feed rest
  end.

(** ** What every run of the analysis satisfies, as one decidable check *)

Section Audit.
Context `{Solidity}.

(** The value returned against the history: a document exactly when every
    call of the pipeline was made and every call made ended [Done]. *)
Definition verdict (r : result (option string)) (t : list (event ErrorType)) : bool :=
  match r with
  | Ret (Some _) => all_done t && forallb (fun c => completed c t) pipeline
  | Ret None => negb (all_done t && forallb (fun c => completed c t) pipeline)
  | Throw _ => false
  end.

Definition checks (r : result (option string)) (t : list (event ErrorType)) : bool :=
  verdict r t
  && last_if aborted t
  && last_if faulted t
  && last_if (failed_at CheckTypeRequirements) t
  && gates_hold [] t
  && homonyms_follow_imports t
  && calls_once t
  && never_fails WarnHomonymDeclarations t
  && degraded_skips_gated t
  && accumulate_tier_runs t.

(** The document returned is the pretty-printed export, at stage
    [AnalysisSuccessful], of some AST. *)
Definition exported (name : string) (r : result (option string)) : Prop :=
  match r with
  | Ret (Some doc) =>
      exists ast j, toJson AnalysisSuccessful {[ name := 0 ]} ast = Ret j
                    /\ jsonPrettyPrint j = Ret doc
  | _ => True
  end.

Definition audit (c : SolParserContext) (name : string) (x : api (option string)) : Prop :=
  let '(r, h, t) := x in
  (exists c1, h = Some c1 /\ errors c1 = errors c /\ errorReporter c1 = errorReporter c
              /\ errorList c1 = last_errors [] t)
  /\ exported name r
  /\ checks r t = true.

(** A diagnostic as the query prints it: kind, colon and space, message,
    line feed. *)
Definition diagnostic_line (error : Error ErrorType) : string :=
  formatErrorType (type error) +:+ ": " +:+ what error +:+ newline.

(** The same without the line feed. *)
Definition diagnostic_entry (error : Error ErrorType) : string :=
  formatErrorType (type error) +:+ ": " +:+ what error.

(** The lines of the diagnostics, one after the other. *)
Definition diagnostic_text (l : ErrorList) : string :=
  fold_right String.append EmptyString (map diagnostic_line l).

End Audit.

Arguments checks : simpl never.
Arguments exported : simpl never.

(** ** Parts of the interface, named *)

(** What the handlers of [sol_parser_parse] make of a throw. *)
Definition parse_caught (x : exn) : result (option string) :=
  if is_std_exception x then Ret None else Throw x.

Section Contexts.
Context `{SolidityTypes}.

(** The context with its diagnostic list replaced. *)
Definition with_errorList (c : SolParserContext) (el : ErrorList) : SolParserContext :=
  mkContext (errors c) el (errorReporter c).

End Contexts.

(** ** The order of the calls *)

(** The calls of a run of Analyze in which nothing fails, in order. *)
Definition analyze_calls : list call :=
  [Json_parse; JsonToSourceUnit] ++ pipeline ++ [ToJson; JsonPrettyPrint].

(** The calls of a run of Analyze up to the end of type checking. *)
Definition calls_through_type_checking : list call :=
  [ Json_parse; JsonToSourceUnit; AssignScopes; CheckSyntax; NewGlobalContext;
    NewNameAndTypeResolver; RegisterDeclarations; PerformImports;
    WarnHomonymDeclarations; ParseDocStrings; ResolveNamesAndTypes;
    DeclarationTypeCheck; ValidateDocStringsUsingTypes; ContractLevelCheck;
    CheckTypeRequirements ].

Fixpoint is_prefix (l1 l2 : list call) : bool :=
  match l1, l2 with
  | [], _ => true
  | c1 :: r1, c2 :: r2 => call_eqb c1 c2 && is_prefix r1 r2
  | _ :: _, [] => false
  end.

Global Instance exn_eq_dec : EqDecision exn.
Proof. solve_decision. Defined.

Global Instance outcome_eq_dec : EqDecision outcome.
Proof. solve_decision. Defined.

Section Order.
Context {K : Type}.
Implicit Types (e : event K) (t : list (event K)).

(** The last call threw [x]. *)
Definition ended_by_throw (x : exn) t : bool :=
  match last t with
  | Some e => bool_decide (ev_outcome e = Threw x)
  | None => false
  end.

(** What [analyzeSourceUnit] returns, against its history: [true] exactly
    after the whole pipeline, each call [Done]; [false] after a failure or a
    throw of something derived from [std::exception]; anything else thrown
    by the last call goes through. *)
Definition pipeline_verdict (r : result bool) t : bool :=
  match r with
  | Ret true => all_done t && bool_decide (map ev_call t = pipeline)
  | Ret false =>
      negb (all_done t)
      && forallb (fun e => match ev_outcome e with
                           | Threw x => is_std_exception x
                           | _ => true
                           end) t
  | Throw x => negb (is_std_exception x) && ended_by_throw x t
  end.

Definition pipeline_checks (r : result bool) t : bool :=
  pipeline_verdict r t
  && is_prefix (map ev_call t) pipeline
  && match t with [] => false | _ :: _ => true end
  && last_if faulted t.

(** A run in which an accumulate-tier call reported failure, and which no
    abort-tier failure and no throw ended, makes the calls through type
    checking and no other. *)
Definition degraded_run_stops t : bool :=
  implb (existsb degraded t && negb (existsb aborted t) && negb (existsb faulted t))
        (bool_decide (map ev_call t = calls_through_type_checking)).

Definition order_checks t : bool :=
  is_prefix (map ev_call t) analyze_calls && degraded_run_stops t.

End Order.

(** ** Passes that only append diagnostics *)

Section AppendOnly.
Context `{Solidity}.

(** The pass [f] leaves a list that begins with the list it found. *)
Definition extends_list {A} (f : Frame -> result A * Frame) : Prop :=
  forall fr r fr1, f fr = (r, fr1) -> f_errors fr `prefix_of` f_errors fr1.

(** Every pass that is handed the error reporter only appends to the list,
    as [ErrorReporter] does. *)
Definition passes_only_append : Prop :=
  (forall l el r l1 el1,
      makeNameAndTypeResolver l el = (r, (l1, el1)) -> el `prefix_of` el1)
  /\ extends_list checkSyntax
  /\ extends_list registerDeclarations
  /\ (forall sourceUnits, extends_list (performImports sourceUnits))
  /\ extends_list warnHomonymDeclarations
  /\ extends_list parseDocStrings
  /\ extends_list resolveNamesAndTypes
  /\ extends_list declarationTypeCheck
  /\ extends_list validateDocStringsUsingTypes
  /\ extends_list contractLevelCheck
  /\ extends_list checkTypeRequirements
  /\ extends_list analyseDocStrings
  /\ extends_list postTypeCheck
  /\ extends_list postTypeFinalize
  /\ extends_list postTypeContractLevelCheck.

End AppendOnly.

(** Each entry shows a list that begins with the list of the entry before
    it ([d] before the first). *)
Fixpoint ascending {K : Type} (d : list (Error K)) (t : list (event K)) : Prop :=
  match t with
  | [] => True
  | e :: rest => d `prefix_of` ev_errors e /\ ascending (ev_errors e) rest
  end.

(** ** The earlier wrapper, [src/solidity-parser-wrapper.cpp]

    The same interface without the analysis: the exporter is not given a
    stage, the JSON value is written to a stream (styled, since
    [exportFormatted] is [true]), and a diagnostic is printed with its
    [typeName]. *)

Class EarlierCodec `{SolidityTypes} : Type := {
  JsonValue : Type;                               (* Json::Value *)
  typeName : Error ErrorType -> string;           (* Error::typeName *)
  exporter_toJson : gmap string nat -> SourceUnit -> result JsonValue;
  stream_styled : JsonValue -> result string;     (* oss << json *)
  stream_compact : JsonValue -> result string     (* the writer with no indentation *)
}.

Module Earlier.
Section Earlier.
Context `{Solidity} `{!EarlierCodec}.

(** The [try] block of the earlier [sol_parser_parse]. *)
Definition sol_parser_parse_try (source source_name : string)
  : M SolParserContext (option string) :=
  let* _ := clear_errorList in
  let sourceStr := source in
  let nameStr := source_name in
  let* ast := invoke errorList ParserParse outcome_of_pointer
                (fun c => let '(r, (rep, el)) :=
                            Parser_parse sourceStr nameStr (errorReporter c) (errorList c) in
                          (r, mkContext (errors c) el rep)) in
  match ast with
  | None => ret None
  | Some ast =>
      let sourceIndices : gmap string nat := <[ nameStr := 0 ]> ∅ in
      let exportFormatted := true in
      let* json := pure_call ToJson (exporter_toJson sourceIndices ast) in
      let* result :=
        if exportFormatted : bool
        then pure_call JsonPrettyPrint (stream_styled json)
        else pure_call JsonPrettyPrint (stream_compact json) in
      ret (c_str result)
  end.

(** Its handlers: [FatalError] and [std::exception]. *)
Definition sol_parser_parse_catch (e : exn) : option (M SolParserContext (option string)) :=
  if is_FatalError e then Some (ret None)
  else if is_std_exception e then Some (ret None)
  else None.

Definition sol_parser_parse (ctx : handle) (source source_name : option string)
  : api (option string) :=
  match ctx, source, source_name with
  | Some c, Some source, Some source_name =>
      let '(r, c1, t) :=
        try_catch (sol_parser_parse_try source source_name) sol_parser_parse_catch c in
      (r, Some c1, t)
  | _, _, _ => (Ret None, ctx, [])
  end.

(** [oss << error->typeName() << ": " << error->what() << "\n"] *)
Definition put_error (oss : string) (error : Error ErrorType) : string :=
  (((oss +:+ typeName error) +:+ ": ") +:+ what error) +:+ newline.

Definition sol_parser_get_errors (ctx : handle) : option string :=
  match ctx with
  | None => None
  | Some c =>
      let oss := fold_left put_error (errorList c) EmptyString in
      let result := oss in
      if (String.length result =? 0)%nat then None else c_str result
  end.

End Earlier.
End Earlier.

(** The earlier codec of the scripted stand-in: the present one. *)
Global Instance scripted_earlier : @EarlierCodec Scripted.types := {|
  JsonValue := string;
  typeName := fun error => Scripted.formatKind (type error);
  exporter_toJson := fun sourceIndices ast => toJson Parsed sourceIndices ast;
  stream_styled := fun json => Ret json;
  stream_compact := fun json => Ret json
|}.

(** ** The JavaScript binding, [libs/shadow/api_emscripten.cpp]

    The class [shadow::Shadow] marshals strings to the functions exported by
    the Zig side, which are not in this repository's sources: they are the
    fields of the class [Zig], functions of the state of the Zig side.  A
    pointer is an address there; [None] is the null pointer. *)

Module Emscripten.

Definition pointer : Type := positive.

Class Zig : Type := {
  ZigState : Type;
  shadow_parse_source :
    string -> nat -> option string -> nat -> ZigState -> option pointer * ZigState;
  shadow_init : string -> nat -> ZigState -> option pointer * ZigState;
  shadow_deinit : pointer -> ZigState -> ZigState;
  shadow_stitch_into_source :
    option pointer -> string -> nat -> option string -> nat -> option string -> nat ->
    ZigState -> option pointer * ZigState;
  shadow_stitch_into_ast :
    option pointer -> string -> nat -> option string -> nat ->
    ZigState -> option pointer * ZigState;
  shadow_free_string : pointer -> ZigState -> ZigState;
  (* the NUL-terminated text at an address, as the constructor of [std::string] reads it *)
  c_string_at : pointer -> ZigState -> string
}.

(** The functions of the Zig side that return a string. *)
Inductive entry_point : Type :=
  | ParseSource
  | StitchIntoSource
  | StitchIntoAst.

(** One entry of the history of the calls made to the Zig side: a call that
    returns a string, with the handle, the texts passed with their lengths,
    the optional texts passed with their lengths and the pointer returned;
    the creation of the handle; a release; the destruction of the handle. *)
Inductive ffi : Type :=
  | Called (f : entry_point) (shadow : option (option pointer))
           (texts : list (string * nat)) (optional : list (option string * nat))
           (result : option pointer)
  | Created (text : string * nat) (result : option pointer)
  | Released (p : pointer)
  | Destroyed (shadow : pointer).

Section Binding.
Context `{Zig}.

Definition Ffi (A : Type) : Type := ZigState -> A * ZigState * list ffi.

Definition pure {A} (a : A) : Ffi A := fun z => (a, z, []).

Definition and_then {A B} (m : Ffi A) (k : A -> Ffi B) : Ffi B :=
  fun z => let '(a, z1, t1) := m z in
           let '(b, z2, t2) := k a z1 in (b, z2, t1 ++ t2).

(** [s.empty() ? nullptr : s.c_str()] *)
Definition c_str_or_null (s : string) : option string :=
  match s with
  | EmptyString => None
  | String _ _ => Some s
  end.

(** [if (!result) return ""; std::string output(result);
    shadow_free_string(result); return output;] *)
Definition take (result : option pointer) : Ffi string :=
  match result with
  | None => pure EmptyString
  | Some p =>
      fun z => let output := c_string_at p z in
               (output, shadow_free_string p z, [Released p])
  end.

(** [Shadow::parseSource] *)
Definition parseSource (source name : string) : Ffi string :=
  and_then
    (fun z =>
       let '(result, z1) :=
         shadow_parse_source source (String.length source)
                             (c_str_or_null name) (String.length name) z in
       (result, z1,
        [Called ParseSource None [(source, String.length source)]
                [(c_str_or_null name, String.length name)] result]))
    take.

(** [class Shadow]: its one member. *)
Record Shadow : Type := mkShadow { handle : option pointer }.

(** The constructor. *)
Definition Shadow_new (source : string) : Ffi Shadow :=
  fun z => let '(h, z1) := shadow_init source (String.length source) z in
           (mkShadow h, z1, [Created (source, String.length source) h]).

(** The destructor: [if (handle) shadow_deinit(handle);] *)
Definition Shadow_delete (this : Shadow) : Ffi unit :=
  match handle this with
  | Some h => fun z => (tt, shadow_deinit h z, [Destroyed h])
  | None => pure tt
  end.

(** [Shadow::stitchIntoSource] *)
Definition stitchIntoSource (this : Shadow) (target sourceName contractName : string)
  : Ffi string :=
  and_then
    (fun z =>
       let '(result, z1) :=
         shadow_stitch_into_source (handle this)
           target (String.length target)
           (c_str_or_null sourceName) (String.length sourceName)
           (c_str_or_null contractName) (String.length contractName) z in
       (result, z1,
        [Called StitchIntoSource (Some (handle this)) [(target, String.length target)]
                [(c_str_or_null sourceName, String.length sourceName);
                 (c_str_or_null contractName, String.length contractName)] result]))
    take.

(** [Shadow::stitchIntoAst] *)
Definition stitchIntoAst (this : Shadow) (targetAst contractName : string) : Ffi string :=
  and_then
    (fun z =>
       let '(result, z1) :=
         shadow_stitch_into_ast (handle this)
           targetAst (String.length targetAst)
           (c_str_or_null contractName) (String.length contractName) z in
       (result, z1,
        [Called StitchIntoAst (Some (handle this)) [(targetAst, String.length targetAst)]
                [(c_str_or_null contractName, String.length contractName)] result]))
    take.

(** What a JavaScript caller does with the class. *)
Inductive use : Type :=
  | UseParseSource (source name : string)
  | UseStitchIntoSource (target sourceName contractName : string)
  | UseStitchIntoAst (targetAst contractName : string).

Definition perform (this : Shadow) (u : use) : Ffi string :=
  match u with
  | UseParseSource source name => parseSource source name
  | UseStitchIntoSource target sourceName contractName =>
      stitchIntoSource this target sourceName contractName
  | UseStitchIntoAst targetAst contractName => stitchIntoAst this targetAst contractName
  end.

Fixpoint perform_all (this : Shadow) (us : list use) : Ffi (list string) :=
  match us with
  | [] => pure []
  | u :: rest =>
      and_then (perform this u) (fun output =>
      and_then (perform_all this rest) (fun outputs => pure (output :: outputs)))
  end.

(** The life of one object: construction, uses, destruction. *)
Definition lifetime (source : string) (us : list use) : Ffi (list string) :=
  and_then (Shadow_new source) (fun this =>
  and_then (perform_all this us) (fun outputs =>
  and_then (Shadow_delete this) (fun _ => pure outputs))).

End Binding.

(** Every string returned is released at once, and nothing else is
    released; no handle is created or destroyed. *)
Fixpoint strings_released (t : list ffi) : Prop :=
  match t with
  | [] => True
  | Called _ _ _ _ None :: rest => strings_released rest
  | Called _ _ _ _ (Some p) :: Released q :: rest => p = q /\ strings_released rest
  | _ => False
  end.

(** The arguments of a call are well formed: a text goes with its length, an
    optional text is null exactly when its length is zero, and the handle
    passed, if any, is [shadow]. *)
Definition well_formed_call (shadow : option pointer) (e : ffi) : Prop :=
  match e with
  | Called _ h texts optional _ =>
      (forall h', h = Some h' -> h' = shadow)
      /\ Forall (fun a => snd a = String.length (fst a)) texts
      /\ Forall (fun a => (fst a = None <-> snd a = 0)
                          /\ forall s, fst a = Some s -> snd a = String.length s) optional
  | Created text _ => snd text = String.length (fst text)
  | Released _ | Destroyed _ => True
  end.

End Emscripten.

(** ** The pipeline as a succession of stages

    The reading of the pipeline the specification gives: a succession of
    stages, each run on what the stage before it left, which succeeds when
    every stage completed without reporting failure and without a fault.
    It is compared below with what [analyzeSourceUnit] does. *)

Section Stages.
Context `{Solidity}.

Definition stage : Type := Frame -> result bool * Frame.

(** A stage that returns nothing reports no failure. *)
Definition completes {A} (f : Frame -> result A * Frame) : stage :=
  fun fr => let '(r, fr1) := f fr in
            (match r with Ret _ => Ret true | Throw x => Throw x end, fr1).

(** The stages, in the order of the pipeline, with the arguments
    [analyzeSourceUnit] hands them. *)
Definition stages : list (call * stage) :=
  [ (AssignScopes, completes (on_ast assignScopes));
    (CheckSyntax, checkSyntax);
    (NewGlobalContext, completes (on_locals makeGlobalContext));
    (NewNameAndTypeResolver, completes (on_reporter makeNameAndTypeResolver));
    (RegisterDeclarations, registerDeclarations);
    (PerformImports,
       fun fr => performImports {[ "Contract.sol"%string := f_ast fr ]} fr);
    (WarnHomonymDeclarations, completes warnHomonymDeclarations);
    (ParseDocStrings, parseDocStrings);
    (ResolveNamesAndTypes, resolveNamesAndTypes);
    (DeclarationTypeCheck, declarationTypeCheck);
    (ValidateDocStringsUsingTypes, validateDocStringsUsingTypes);
    (ContractLevelCheck, contractLevelCheck);
    (CheckTypeRequirements, checkTypeRequirements);
    (AnalyseDocStrings, analyseDocStrings);
    (PostTypeCheck, postTypeCheck);
    (PostTypeFinalize, postTypeFinalize);
    (BuildCallGraphs,
       completes (on_ast (fun _ast => assignCallGraphs (contracts _ast) _ast)));
    (PostTypeContractLevelCheck, postTypeContractLevelCheck) ].

(** Every stage of [ss], run in turn from [fr], completes and reports no
    failure; the result is what the last one left. *)
Fixpoint every_stage_succeeds (ss : list (call * stage)) (fr : Frame) : option Frame :=
  match ss with
  | [] => Some fr
  | (_, run) :: rest =>
      match run fr with
      | (Ret true, fr1) => every_stage_succeeds rest fr1
      | _ => None
      end
  end.

End Stages.

(** ** Symbolic execution of the wrapper *)

Ltac step :=
  match goal with
  | |- context [match ?X with _ => _ end] =>
      lazymatch X with
      | context [match _ with _ => _ end] => fail
      | _ => destruct X eqn:?
      end
  end.

Ltac split_bools :=
  repeat match goal with
         | b : bool |- _ => destruct b
         | u : unit |- _ => destruct u
         end.

Section Run.
Context `{Solidity}.

Lemma analyze_audit (c : SolParserContext) (json name : string) :
  audit c name (sol_analyze_parsed_ast_json (Some c) (Some json) (Some name)).
Proof.
  unfold sol_analyze_parsed_ast_json, sol_analyze_parsed_ast_json_try, try_catch,
    call_analyzeSourceUnit, analyzeSourceUnit, analyzeSourceUnit_try, try_catch, bind,
    pure_call, pass, invoke, clear_errorList, modify, ret, on_ast, on_locals,
    on_reporter, c_str, sol_analyze_parsed_ast_json_catch, analyzeSourceUnit_catch.
  unfold audit.
  repeat (step; split_bools; cbn).
  all: split; [eexists; repeat split; reflexivity|].
  all: split; [unfold exported; eauto|].
  all: lazy; reflexivity.
Qed.

End Run.

(** ** From the decidable readings to statements about histories *)

Section HistoryFacts.
Context {K : Type}.
Implicit Types (e : event K) (t pre post : list (event K)).

Lemma is_tier_spec (k : tier) (c : call) : is_tier k c = true <-> tier_of c = k.
Proof. unfold is_tier. destruct k, (tier_of c); split; congruence. Qed.

Lemma call_eqb_spec (c c' : call) : call_eqb c c' = true <-> c = c'.
Proof. unfold call_eqb. apply bool_decide_eq_true. Qed.

Lemma is_done_spec (o : outcome) : is_done o = true <-> o = Done.
Proof. destruct o; simpl; split; congruence. Qed.

Lemma is_failed_spec (o : outcome) : is_failed o = true <-> o = Failed.
Proof. destruct o; simpl; split; congruence. Qed.

Lemma aborted_spec e :
  aborted e = true <-> tier_of (ev_call e) = AbortOnFailure /\ ev_outcome e = Failed.
Proof. unfold aborted. rewrite andb_true_iff, is_tier_spec, is_failed_spec. tauto. Qed.

Lemma degraded_spec e :
  degraded e = true <-> tier_of (ev_call e) = AccumulateOnFailure /\ ev_outcome e = Failed.
Proof. unfold degraded. rewrite andb_true_iff, is_tier_spec, is_failed_spec. tauto. Qed.

Lemma faulted_spec e : faulted e = true <-> exists x, ev_outcome e = Threw x.
Proof.
  unfold faulted. destruct (ev_outcome e); split; try congruence; eauto.
  all: intros [x Hx]; congruence.
Qed.

Lemma failed_at_spec (c : call) e :
  failed_at c e = true <-> ev_call e = c /\ ev_outcome e = Failed.
Proof. unfold failed_at. rewrite andb_true_iff, call_eqb_spec, is_failed_spec. tauto. Qed.

(** An entry that [last_if] watches for has nothing after it. *)
Lemma last_if_spec (p : event K -> bool) t pre e post :
  last_if p t = true -> t = pre ++ e :: post -> p e = true -> post = [].
Proof.
  revert t. induction pre as [|e0 pre IH]; intros t Ht -> He; simpl in Ht.
  - rewrite He in Ht. destruct post; congruence.
  - destruct (p e0).
    + destruct pre; discriminate.
    + eapply IH; eauto.
Qed.

(** Every entry before a gated call lets it pass. *)
Lemma gates_hold_before (before : list (event K)) t pre e post :
  gates_hold before t = true -> t = pre ++ e :: post ->
  tier_of (ev_call e) = Gated ->
  forallb (lets_pass (ev_call e)) (rev pre ++ before) = true.
Proof.
  revert before t. induction pre as [|e0 pre IH]; intros before t Ht -> He.
  - cbn [gates_hold app] in Ht. apply is_tier_spec in He. rewrite He in Ht.
    apply andb_true_iff in Ht as [Ht _]. exact Ht.
  - cbn [gates_hold app] in Ht. apply andb_true_iff in Ht as [_ Ht].
    simpl. rewrite <- app_assoc. simpl. eapply IH; eauto.
Qed.

Lemma gates_hold_spec t pre e post e' :
  gates_hold [] t = true -> t = pre ++ e :: post ->
  tier_of (ev_call e) = Gated -> In e' pre ->
  ev_outcome e' = Done \/ (ev_call e' = PostTypeCheck /\ ev_call e = PostTypeFinalize).
Proof.
  intros Ht Hsplit He Hin.
  pose proof (gates_hold_before [] t pre e post Ht Hsplit He) as Hall.
  rewrite app_nil_r in Hall. rewrite forallb_forall in Hall.
  specialize (Hall e'). rewrite <- in_rev in Hall. specialize (Hall Hin).
  unfold lets_pass in Hall. apply orb_true_iff in Hall as [Hd|Hp].
  - left. now apply is_done_spec.
  - right. apply andb_true_iff in Hp as [H1 H2].
    split; now apply call_eqb_spec.
Qed.

(** [warnHomonymDeclarations] is the next call after a [performImports]
    that ended [Done]. *)
Lemma homonyms_follow_imports_spec t pre e post :
  homonyms_follow_imports t = true -> t = pre ++ e :: post ->
  ev_call e = PerformImports -> ev_outcome e = Done ->
  exists w post', post = w :: post' /\ ev_call w = WarnHomonymDeclarations.
Proof.
  revert t. induction pre as [|e0 pre IH]; intros t Ht -> Hc Ho;
    cbn [homonyms_follow_imports app] in Ht.
  - apply andb_true_iff in Ht as [Ht _].
    rewrite Hc, Ho in Ht. cbn in Ht.
    destruct post as [|w post']; [discriminate|].
    exists w, post'. split; [reflexivity|]. now apply call_eqb_spec.
  - apply andb_true_iff in Ht as [_ Ht]. eapply IH; eauto.
Qed.

Lemma all_done_spec t :
  all_done t = true <-> forall e, In e t -> ev_outcome e = Done.
Proof.
  unfold all_done. rewrite forallb_forall.
  split; intros Hall e He; apply is_done_spec; auto.
Qed.

Lemma completed_spec (c : call) t :
  completed c t = true <-> exists e, In e t /\ ev_call e = c /\ ev_outcome e = Done.
Proof.
  unfold completed. rewrite existsb_exists. split.
  - intros [e [He Hb]]. apply andb_true_iff in Hb as [Hc Hd].
    exists e. repeat split; [assumption|now apply call_eqb_spec|now apply is_done_spec].
  - intros [e [He [Hc Hd]]]. exists e. split; [assumption|].
    apply andb_true_iff. split; [now apply call_eqb_spec|now apply is_done_spec].
Qed.

(** The list the last call left is what [last_errors] reads off. *)
Lemma last_errors_app (d : list (Error K)) pre e :
  last_errors d (pre ++ [e]) = ev_errors e.
Proof. unfold last_errors. rewrite fold_left_app. reflexivity. Qed.

(** Where only the call [c] produces diagnostics and [c] is not made, the
    list stays as it was. *)
Lemma only_producer_absent (c : call) (d : list (Error K)) t :
  only_producer c d t -> (forall e, In e t -> ev_call e <> c) -> last_errors d t = d.
Proof.
  revert d. induction t as [|e t IH]; intros d Hp Habs; [reflexivity|].
  destruct Hp as [He Hp]. simpl.
  change (last_errors (ev_errors e) t = d).
  rewrite IH; [|assumption|intros e' He'; apply Habs; now right].
  apply He, Habs. now left.
Qed.

(** Where only the call [c] produces diagnostics and [c] is made once, the
    list at the end is the one [c] left. *)
Lemma only_producer_last (c : call) (d : list (Error K)) pre w post :
  only_producer c d (pre ++ w :: post) ->
  (forall e, In e post -> ev_call e <> c) ->
  last_errors d (pre ++ w :: post) = ev_errors w.
Proof.
  revert d. induction pre as [|e pre IH]; intros d Hp Habs.
  - destruct Hp as [_ Hp]. simpl.
    change (last_errors (ev_errors w) post = ev_errors w).
    now apply (only_producer_absent c).
  - destruct Hp as [_ Hp]. simpl.
    change (last_errors (ev_errors e) (pre ++ w :: post) = ev_errors w).
    now apply IH.
Qed.

Lemma no_abort_failure_spec t :
  existsb aborted t = false ->
  forall e, In e t -> tier_of (ev_call e) = AbortOnFailure -> ev_outcome e <> Failed.
Proof.
  intros Hnone e He Htier Hfail.
  assert (Hex : existsb aborted t = true).
  { apply existsb_exists. exists e. split; [assumption|]. apply aborted_spec. auto. }
  congruence.
Qed.

Lemma no_fault_spec t :
  existsb faulted t = false -> forall e x, In e t -> ev_outcome e <> Threw x.
Proof.
  intros Hnone e x He Hthrew.
  assert (Hex : existsb faulted t = true).
  { apply existsb_exists. exists e. split; [assumption|]. apply faulted_spec. eauto. }
  congruence.
Qed.

Lemma all_done_nothing_failed t :
  all_done t = true ->
  (forall e, In e t -> ev_outcome e <> Failed)
  /\ (forall e x, In e t -> ev_outcome e <> Threw x).
Proof.
  rewrite all_done_spec. intros Hall.
  split; [intros e He Ho|intros e x He Ho]; apply Hall in He; congruence.
Qed.

Lemma all_completed_spec (cs : list call) t :
  forallb (fun c => completed c t) cs = true ->
  forall c, In c cs -> exists e, In e t /\ ev_call e = c /\ ev_outcome e = Done.
Proof.
  rewrite forallb_forall. intros Hall c Hc. apply completed_spec. auto.
Qed.

Lemma leaves_diagnostics_spec (c : call) t w :
  leaves_diagnostics c t = true -> In w t -> ev_call w = c -> ev_errors w <> [].
Proof.
  unfold leaves_diagnostics. rewrite forallb_forall. intros Hall Hw Hc.
  apply Hall in Hw. apply call_eqb_spec in Hc. rewrite Hc in Hw.
  destruct (ev_errors w); [discriminate|discriminate].
Qed.

(** In a history without a repeated call, the entries after a call are of
    other calls. *)
Lemma calls_once_spec pre e post e' :
  calls_once (pre ++ e :: post) = true -> In e' post -> ev_call e' <> ev_call e.
Proof.
  unfold calls_once. rewrite bool_decide_eq_true.
  rewrite map_app. simpl. intros Hnd Hin Heq.
  apply NoDup_app in Hnd as (_ & _ & Hnd).
  apply NoDup_cons in Hnd as [Hnotin _].
  apply Hnotin. rewrite <- Heq. apply list_elem_of_In. now apply in_map.
Qed.

End HistoryFacts.

(** ** Runs of [sol_analyze_parsed_ast_json] *)

Section Runs.
Context `{Solidity}.
Implicit Types (ctx : handle) (r : result (option string)) (t : list (event ErrorType)).

(** Every run passes the check, also the one that returns on a null
    argument before anything is called. *)
Lemma analyze_checks ctx (json name : option string) r (h : handle) t :
  sol_analyze_parsed_ast_json ctx json name = (r, h, t) -> checks r t = true.
Proof.
  destruct ctx as [c|], json as [json|], name as [name|];
    try (cbn; intros [= <- <- <-]; lazy; reflexivity).
  intros Hrun. pose proof (analyze_audit c json name) as Ha.
  rewrite Hrun in Ha. apply Ha.
Qed.

(** After a call with no null argument the context holds the list the last
    call into libsolidity left, or the empty list when none was made. *)
Lemma analyze_context (c : SolParserContext) (json name : string) r (h : handle) t :
  sol_analyze_parsed_ast_json (Some c) (Some json) (Some name) = (r, h, t) ->
  exists c1, h = Some c1 /\ errors c1 = errors c /\ errorReporter c1 = errorReporter c
             /\ errorList c1 = last_errors [] t.
Proof.
  intros Hrun. pose proof (analyze_audit c json name) as Ha.
  rewrite Hrun in Ha. apply Ha.
Qed.

Lemma analyze_exported (c : SolParserContext) (json name : string) r (h : handle) t :
  sol_analyze_parsed_ast_json (Some c) (Some json) (Some name) = (r, h, t) ->
  exported name r.
Proof.
  intros Hrun. pose proof (analyze_audit c json name) as Ha.
  rewrite Hrun in Ha. apply Ha.
Qed.

Lemma checks_elim r t :
  checks r t = true ->
  verdict r t = true /\ last_if aborted t = true /\ last_if faulted t = true
  /\ last_if (failed_at CheckTypeRequirements) t = true
  /\ gates_hold [] t = true /\ homonyms_follow_imports t = true
  /\ calls_once t = true /\ never_fails WarnHomonymDeclarations t = true
  /\ degraded_skips_gated t = true /\ accumulate_tier_runs t = true.
Proof.
  unfold checks. rewrite !andb_true_iff. tauto.
Qed.

(** A run in which some call did not end [Done] returns null. *)
Lemma verdict_not_done r t e :
  verdict r t = true -> In e t -> ev_outcome e <> Done -> r = Ret None.
Proof.
  intros Hv He Hne. destruct r as [[doc|]|x]; cbn [verdict] in Hv; try congruence.
  apply andb_true_iff in Hv as [Hd _].
  rewrite all_done_spec in Hd. now apply Hd in He.
Qed.

(** A run returns a document exactly when the whole pipeline was run and
    every call ended [Done]. *)
Lemma verdict_document r t :
  verdict r t = true ->
  ((exists doc, r = Ret (Some doc)) <->
   all_done t = true /\ forallb (fun c => completed c t) pipeline = true).
Proof.
  intros Hv. destruct r as [[doc|]|x]; cbn [verdict] in Hv.
  - apply andb_true_iff in Hv. split; [tauto|eauto].
  - apply negb_true_iff, andb_false_iff in Hv.
    split; [intros [doc Hdoc]; congruence|].
    intros [H1 H2]. destruct Hv; congruence.
  - discriminate.
Qed.

End Runs.

(** ** The stage-failure policy of the pipeline *)

Section Policy.
Context `{Solidity}.
Implicit Types (ctx : handle) (r : result (option string)) (t : list (event ErrorType)).

(** C1. In every run of Analyze, an abort-tier call (declaration
    registration, import resolution, name-and-type resolution, declaration
    type checking) that reports failure is the last call of the run: no
    later pass runs, nothing is exported, and Analyze returns null. *)
Theorem abort_tier_failure_stops_the_pipeline ctx (json name : option string)
    r (h : handle) t pre e post :
  sol_analyze_parsed_ast_json ctx json name = (r, h, t) ->
  t = pre ++ e :: post ->
  tier_of (ev_call e) = AbortOnFailure ->
  ev_outcome e = Failed ->
  post = [] /\ r = Ret None.
Proof.
  intros Hrun Hsplit Htier Hfail.
  apply analyze_checks, checks_elim in Hrun as (Hv & Hab & _).
  split.
  - eapply last_if_spec; [exact Hab|exact Hsplit|].
    apply aborted_spec. auto.
  - eapply verdict_not_done; [exact Hv| |rewrite Hfail; discriminate].
    rewrite Hsplit. apply in_or_app. right. now left.
Qed.

(** C2. In every run of Analyze, an accumulate-tier call (syntax checking,
    docstring tag parsing and validation, contract-level checking, type
    checking) that reports failure does not end the tier: unless an
    abort-tier failure or a throw ends the run, all five accumulate-tier
    calls are made, in order.  And when it is type checking that reports
    failure, the context holds, after the call, the diagnostic list exactly
    as type checking left it: every diagnostic it recorded, so both of two. *)
Theorem accumulate_tier_failure_does_not_stop_the_tier ctx (json name : option string)
    r (h : handle) t e :
  sol_analyze_parsed_ast_json ctx json name = (r, h, t) ->
  In e t ->
  tier_of (ev_call e) = AccumulateOnFailure ->
  ev_outcome e = Failed ->
  ((forall e', In e' t -> tier_of (ev_call e') = AbortOnFailure ->
               ev_outcome e' <> Failed) ->
   (forall e' x, In e' t -> ev_outcome e' <> Threw x) ->
   calls_of_tier AccumulateOnFailure t = accumulate_tier)
  /\ (ev_call e = CheckTypeRequirements ->
      exists c1, h = Some c1 /\ errorList c1 = ev_errors e
                 /\ forall d, In d (ev_errors e) -> In d (errorList c1)).
Proof.
  intros Hrun Hin Htier Hfail. split.
  - intros Hnoabort Hnothrow.
    apply analyze_checks, checks_elim in Hrun as (_ & _ & _ & _ & _ & _ & _ & _ & _ & Hacc).
    unfold accumulate_tier_runs in Hacc.
    destruct (existsb aborted t) eqn:Hab.
    { apply existsb_exists in Hab as [e' [He' Hb]]. apply aborted_spec in Hb as [Hb1 Hb2].
      now apply Hnoabort in Hb2. }
    destruct (existsb faulted t) eqn:Hft.
    { apply existsb_exists in Hft as [e' [He' Hb]]. apply faulted_spec in Hb as [x Hx].
      now apply Hnothrow in Hx. }
    destruct (existsb (fun e0 => negb (is_tier Codec (ev_call e0))) t) eqn:Hin'.
    + cbn [andb negb implb] in Hacc. now apply bool_decide_eq_true in Hacc.
    + assert (Hex : existsb (fun e0 => negb (is_tier Codec (ev_call e0))) t = true).
      { apply existsb_exists. exists e. split; [assumption|].
        unfold is_tier. now rewrite Htier. }
      congruence.
  - intros Hcall.
    destruct ctx as [c|], json as [json|], name as [name|];
      try (cbn in Hrun; injection Hrun as <- <- <-; destruct Hin).
    pose proof (analyze_context _ _ _ _ _ _ Hrun) as (c1 & Hh & _ & _ & Hlast).
    apply analyze_checks, checks_elim in Hrun as (_ & _ & _ & Htc & _).
    apply in_split in Hin as (pre & post & Hsplit).
    assert (Hpost : post = []).
    { eapply last_if_spec; [exact Htc|exact Hsplit|]. apply failed_at_spec. auto. }
    subst post. exists c1. split; [assumption|].
    assert (Heq : errorList c1 = ev_errors e).
    { rewrite Hlast, Hsplit. apply last_errors_app. }
    split; [assumption|]. intros d Hd. now rewrite Heq.
Qed.

(** C3. In every run of Analyze, a gated call (docstring analysis,
    post-type checking, call-graph construction, post-type contract-level
    checking) is made only when every earlier call ended without failure and
    without a throw; the one call a failure does not hold back is
    [PostTypeChecker::finalize] after its own [check] failed, both being the
    post-type checking stage.  Once an accumulate-tier call has reported
    failure the run has no gated call, and the call graphs are built only in
    runs in which nothing had reported failure before. *)
Theorem gated_stages_run_only_while_nothing_failed ctx (json name : option string)
    r (h : handle) t :
  sol_analyze_parsed_ast_json ctx json name = (r, h, t) ->
  (forall pre e post e',
      t = pre ++ e :: post -> tier_of (ev_call e) = Gated -> In e' pre ->
      ev_outcome e' = Done
      \/ (ev_call e' = PostTypeCheck /\ ev_call e = PostTypeFinalize))
  /\ (forall e', In e' t -> tier_of (ev_call e') = AccumulateOnFailure ->
                 ev_outcome e' = Failed ->
                 forall e, In e t -> tier_of (ev_call e) <> Gated)
  /\ (forall pre e post e',
        t = pre ++ e :: post -> ev_call e = BuildCallGraphs -> In e' pre ->
        ev_outcome e' = Done).
Proof.
  intros Hrun.
  apply analyze_checks, checks_elim in Hrun
    as (_ & _ & _ & _ & Hg & _ & _ & _ & Hskip & _).
  assert (Hgate : forall pre e post e',
             t = pre ++ e :: post -> tier_of (ev_call e) = Gated -> In e' pre ->
             ev_outcome e' = Done
             \/ (ev_call e' = PostTypeCheck /\ ev_call e = PostTypeFinalize)).
  { intros pre e post e' Hsplit Hgated Hin. eapply gates_hold_spec; eauto. }
  split; [exact Hgate|]. split.
  - intros e' Hin' Htier Hfail e Hin Hgated.
    unfold degraded_skips_gated in Hskip.
    assert (Hex : existsb degraded t = true).
    { apply existsb_exists. exists e'. split; [assumption|]. apply degraded_spec. auto. }
    rewrite Hex in Hskip. cbn [implb] in Hskip. rewrite forallb_forall in Hskip.
    apply Hskip in Hin. apply negb_true_iff in Hin.
    apply is_tier_spec in Hgated. congruence.
  - intros pre e post e' Hsplit Hcall Hin.
    destruct (Hgate pre e post e' Hsplit) as [Hd|[_ Hfin]]; auto.
    + now rewrite Hcall.
    + congruence.
Qed.

(** A successful run, read off its history: Analyze returns a document
    exactly when every call of the pipeline was made and ended without
    reporting failure, and no call (parsing the JSON, importing, a pass,
    exporting) threw.  A run in which a call reported failure, or threw,
    returns null. *)
Lemma document_iff_the_history_is_all_done ctx (json name : option string)
    r (h : handle) t :
  sol_analyze_parsed_ast_json ctx json name = (r, h, t) ->
  ((exists doc, r = Ret (Some doc)) <->
   (forall c, In c pipeline ->
              exists e, In e t /\ ev_call e = c /\ ev_outcome e = Done)
   /\ (forall e, In e t -> ev_outcome e <> Failed)
   /\ (forall e x, In e t -> ev_outcome e <> Threw x))
  /\ (forall doc, r = Ret (Some doc) ->
        exists nameStr ast j,
          name = Some nameStr
          /\ toJson AnalysisSuccessful {[ nameStr := 0 ]} ast = Ret j
          /\ jsonPrettyPrint j = Ret doc)
  /\ (forall e, In e t -> ev_outcome e = Failed -> r = Ret None)
  /\ (forall e x, In e t -> ev_outcome e = Threw x -> r = Ret None).
Proof.
  intros Hrun.
  pose proof (analyze_checks _ _ _ _ _ _ Hrun) as Hc.
  apply checks_elim in Hc as (Hv & _).
  split; [|split; [|split]].
  - rewrite (verdict_document _ _ Hv), all_done_spec, forallb_forall.
    split.
    + intros [Hd Hp]. split; [|split].
      * intros c Hc. apply completed_spec. auto.
      * intros e He Hf. apply Hd in He. congruence.
      * intros e x He Hf. apply Hd in He. congruence.
    + intros (Hp & Hnf & Hnt). split.
      * intros e He. destruct (ev_outcome e) as [| |x] eqn:Ho; [reflexivity| |].
        -- now apply Hnf in He.
        -- now apply Hnt in Ho.
      * intros c Hc. apply completed_spec. auto.
  - intros doc ->.
    destruct ctx as [c|], json as [json|], name as [name|];
      try (cbn in Hrun; discriminate).
    apply analyze_exported in Hrun. unfold exported in Hrun.
    destruct Hrun as (ast & j & Hj & Hp). exists name, ast, j. auto.
  - intros e He Hf. eapply verdict_not_done; eauto. rewrite Hf. discriminate.
  - intros e x He Hf. eapply verdict_not_done; eauto. rewrite Hf. discriminate.
Qed.

End Policy.

(** ** The diagnostics query *)

Section Strings.

Lemma append_assoc (a b c : string) : (a +:+ b) +:+ c = a +:+ (b +:+ c).
Proof.
  induction a as [|x a IH]; [reflexivity|].
  change (String x ((a +:+ b) +:+ c) = String x (a +:+ (b +:+ c))). now rewrite IH.
Qed.

Lemma append_nil_r (a : string) : a +:+ EmptyString = a.
Proof.
  induction a as [|x a IH]; [reflexivity|].
  change (String x (a +:+ EmptyString) = String x a). now rewrite IH.
Qed.

Lemma length_append (a b : string) :
  String.length (a +:+ b) = String.length a + String.length b.
Proof.
  induction a as [|x a IH]; [reflexivity|].
  change (S (String.length (a +:+ b)) = S (String.length a + String.length b)).
  now rewrite IH.
Qed.

Lemma free_of_line_feed_append (a b : string) :
  free_of_line_feed (a +:+ b) = free_of_line_feed a && free_of_line_feed b.
Proof.
  induction a as [|x a IH]; [reflexivity|].
  change (negb (Ascii.eqb x line_feed) && free_of_line_feed (a +:+ b)
          = negb (Ascii.eqb x line_feed) && free_of_line_feed a && free_of_line_feed b).
  rewrite IH. now rewrite andb_assoc.
Qed.

(** A text that begins with a line and its line feed has that line first. *)
Lemma lines_cons (l rest : string) :
  free_of_line_feed l = true ->
  lines (l +:+ String line_feed rest) = l :: lines rest.
Proof.
  induction l as [|x l IH]; intros Hfree.
  - reflexivity.
  - simpl in Hfree. apply andb_true_iff in Hfree as [Hx Hl].
    apply negb_true_iff in Hx.
    change (lines (String x (l +:+ String line_feed rest)) = String x l :: lines rest).
    cbn [lines]. rewrite Hx. now rewrite (IH Hl).
Qed.

End Strings.

Section Query.
Context `{Solidity}.

Lemma put_error_line (oss : string) (error : Error ErrorType) :
  put_error oss error = oss +:+ diagnostic_line error.
Proof.
  unfold put_error, diagnostic_line. now rewrite !append_assoc.
Qed.

(** What the loop of the query leaves in the stream. *)
Lemma stream_contents (l : ErrorList) (oss : string) :
  fold_left put_error l oss = oss +:+ diagnostic_text l.
Proof.
  revert oss. induction l as [|error l IH]; intros oss.
  - cbn. now rewrite append_nil_r.
  - cbn [fold_left]. rewrite IH, put_error_line, append_assoc. reflexivity.
Qed.

Lemma diagnostic_line_length (error : Error ErrorType) :
  0 < String.length (diagnostic_line error).
Proof.
  unfold diagnostic_line. rewrite !length_append. cbn. lia.
Qed.

Lemma diagnostic_text_empty (l : ErrorList) :
  String.length (diagnostic_text l) = 0 <-> l = [].
Proof.
  destruct l as [|error l]; [cbn; tauto|].
  split; [|discriminate].
  unfold diagnostic_text. cbn [map fold_right]. rewrite length_append.
  pose proof (diagnostic_line_length error). lia.
Qed.

Lemma get_errors_text (c : SolParserContext) :
  sol_parser_get_errors (Some c)
  = if (String.length (diagnostic_text (errorList c)) =? 0)%nat then None
    else Some (diagnostic_text (errorList c)).
Proof.
  unfold sol_parser_get_errors. rewrite stream_contents. reflexivity.
Qed.

Lemma get_errors_none (c : SolParserContext) :
  sol_parser_get_errors (Some c) = None <-> errorList c = [].
Proof.
  rewrite get_errors_text, <- diagnostic_text_empty.
  destruct (Nat.eqb_spec (String.length (diagnostic_text (errorList c))) 0);
    split; congruence.
Qed.

Lemma diagnostic_line_entry (error : Error ErrorType) :
  diagnostic_line error = diagnostic_entry error +:+ newline.
Proof.
  unfold diagnostic_line, diagnostic_entry. now rewrite !append_assoc.
Qed.

Lemma diagnostic_text_cons (error : Error ErrorType) (l : ErrorList) :
  diagnostic_text (error :: l)
  = diagnostic_entry error +:+ String line_feed (diagnostic_text l).
Proof.
  unfold diagnostic_text. cbn [map fold_right].
  rewrite diagnostic_line_entry, append_assoc. reflexivity.
Qed.

Lemma diagnostic_text_lines (l : ErrorList) :
  (forall error, In error l ->
     free_of_line_feed (formatErrorType (type error)) = true
     /\ free_of_line_feed (what error) = true) ->
  lines (diagnostic_text l) = map diagnostic_entry l.
Proof.
  induction l as [|error l IH]; intros Hfree; [reflexivity|].
  rewrite diagnostic_text_cons, lines_cons.
  - cbn [map]. rewrite IH; [reflexivity|]. intros e He. apply Hfree. now right.
  - destruct (Hfree error) as [Hk Hw]; [now left|].
    unfold diagnostic_entry. rewrite !free_of_line_feed_append, Hk, Hw. reflexivity.
Qed.

(** C8. For every context, the diagnostics query returns null exactly when
    the context's diagnostic list is empty; otherwise it returns the text
    made of one entry per diagnostic, in the order of the list, each entry
    being the diagnostic's kind, a colon and a space, its message and a
    line feed.  Where no kind and no message holds a line feed, the lines
    of the text are the diagnostics, one line each. *)
Theorem diagnostics_query_prints_one_line_per_diagnostic (c : SolParserContext) :
  (sol_parser_get_errors (Some c) = None <-> errorList c = [])
  /\ (errorList c <> [] ->
      sol_parser_get_errors (Some c)
      = Some (fold_right String.append EmptyString
                (map (fun error => formatErrorType (type error) +:+ ": "
                                   +:+ what error +:+ newline)
                     (errorList c))))
  /\ ((forall error, In error (errorList c) ->
         free_of_line_feed (formatErrorType (type error)) = true
         /\ free_of_line_feed (what error) = true) ->
      forall text, sol_parser_get_errors (Some c) = Some text ->
      lines text
      = map (fun error => formatErrorType (type error) +:+ ": " +:+ what error)
            (errorList c)).
Proof.
  split; [apply get_errors_none|]. split.
  - intros Hne. rewrite get_errors_text.
    destruct (Nat.eqb_spec (String.length (diagnostic_text (errorList c))) 0)
      as [Hlen|Hlen]; [|reflexivity].
    now apply diagnostic_text_empty in Hlen.
  - intros Hfree text Htext. rewrite get_errors_text in Htext.
    destruct (String.length (diagnostic_text (errorList c)) =? 0)%nat; [discriminate|].
    injection Htext as <-. now apply diagnostic_text_lines.
Qed.

End Query.

(** ** The interface: structural failures, null arguments, faults *)

Section Interface.
Context `{Solidity}.
Implicit Types (ctx : handle) (r : result (option string)) (t : list (event ErrorType)).

Lemma imported_none (asts : gmap string (option SourceUnit)) (nameStr : string) :
  asts = ∅ \/ asts !! nameStr = None \/ asts !! nameStr = Some None ->
  imported asts nameStr = None.
Proof.
  unfold imported. intros [->|[Hl|Hl]].
  - now rewrite map_size_empty.
  - rewrite Hl. now destruct (size asts =? 0)%nat.
  - rewrite Hl. now destruct (size asts =? 0)%nat.
Qed.

Ltac unfold_analyze :=
  unfold sol_analyze_parsed_ast_json, sol_analyze_parsed_ast_json_try, try_catch,
    call_analyzeSourceUnit, analyzeSourceUnit, analyzeSourceUnit_try, try_catch, bind,
    pure_call, pass, invoke, clear_errorList, modify, ret, on_ast, on_locals,
    on_reporter, c_str, sol_analyze_parsed_ast_json_catch, analyzeSourceUnit_catch.

(** C5. An Analyze call whose JSON text does not parse, whose import throws,
    or whose imported map is empty, has no entry for the requested name or
    has a null one, returns null without running any pass; the diagnostic
    list, cleared at the start of the call, is empty afterwards, and the
    diagnostics query on the context returns null. *)
Theorem structural_failure_returns_null_without_diagnostics
    (c : SolParserContext) (json name : string) :
  (exists x, parse_json json = Throw x)
  \/ (exists j x, parse_json json = Ret j /\ jsonToSourceUnit {[ name := j ]} = Throw x)
  \/ (exists j asts, parse_json json = Ret j
                     /\ jsonToSourceUnit {[ name := j ]} = Ret asts
                     /\ (asts = ∅ \/ asts !! name = None \/ asts !! name = Some None)) ->
  exists c1 t,
    sol_analyze_parsed_ast_json (Some c) (Some json) (Some name) = (Ret None, Some c1, t)
    /\ errorList c1 = []
    /\ sol_parser_get_errors (Some c1) = None
    /\ (forall e, In e t -> tier_of (ev_call e) = Codec).
Proof.
  intros [[x Hx]|[(j & x & Hj & Hx)|(j & asts & Hj & Hasts & Hnone)]].
  - unfold_analyze. rewrite Hx. cbn.
    destruct (is_std_exception x); cbn;
      (eexists; eexists; split; [reflexivity|]; split; [reflexivity|];
       split; [reflexivity|]; intros e [<-|[]]; reflexivity).
  - unfold_analyze. rewrite Hj. cbn. rewrite Hx. cbn.
    destruct (is_std_exception x); cbn;
      (eexists; eexists; split; [reflexivity|]; split; [reflexivity|];
       split; [reflexivity|]; intros e [<-|[<-|[]]]; reflexivity).
  - apply imported_none in Hnone.
    unfold_analyze. rewrite Hj. cbn. rewrite Hasts. cbn. rewrite Hnone. cbn.
    eexists; eexists; split; [reflexivity|]; split; [reflexivity|];
      split; [reflexivity|]; intros e [<-|[<-|[]]]; reflexivity.
Qed.

(** The value Analyze returns, and the calls it makes, do not depend on the
    context it is given: two calls on the same document and name return the
    same value (both null, or the same text) on any two contexts.  The
    wrapper keeps no state of its own besides the context; whether the
    passes of libsolidity do is not a matter of this file, where they are
    functions of what they are handed. *)
Theorem analysis_does_not_depend_on_the_context
    (c1 c2 : SolParserContext) (json name : option string) :
  fst (fst (sol_analyze_parsed_ast_json (Some c1) json name))
  = fst (fst (sol_analyze_parsed_ast_json (Some c2) json name))
  /\ snd (sol_analyze_parsed_ast_json (Some c1) json name)
     = snd (sol_analyze_parsed_ast_json (Some c2) json name)
  /\ fst (fst (sol_analyze_parsed_ast_json sol_parser_create json name))
     = fst (fst (sol_analyze_parsed_ast_json (Some c1) json name)).
Proof.
  assert (Hany : forall a b : SolParserContext,
             fst (fst (sol_analyze_parsed_ast_json (Some a) json name))
             = fst (fst (sol_analyze_parsed_ast_json (Some b) json name))
             /\ snd (sol_analyze_parsed_ast_json (Some a) json name)
                = snd (sol_analyze_parsed_ast_json (Some b) json name)).
  { intros a b. destruct json as [json|], name as [name|]; try (split; reflexivity).
    unfold_analyze.
    repeat (step; split_bools; cbn).
    all: split; reflexivity. }
  split; [apply Hany|]. split; [apply Hany|].
  unfold sol_parser_create. apply Hany.
Qed.

(** C10. A call of Parse or Analyze with a null context, a null text or a
    null source-unit name returns null at once: nothing is called, and the
    context, its diagnostic list included, is as it was. *)
Theorem null_argument_returns_null_and_leaves_the_context
    ctx (text source_name : option string) :
  ctx = None \/ text = None \/ source_name = None ->
  sol_parser_parse ctx text source_name = (Ret None, ctx, [])
  /\ sol_analyze_parsed_ast_json ctx text source_name = (Ret None, ctx, []).
Proof.
  intros Hnull.
  destruct ctx as [c|], text as [text|], source_name as [source_name|];
    try (split; reflexivity).
  destruct Hnull as [Hn|[Hn|Hn]]; discriminate.
Qed.

End Interface.

(** ** Warnings and success; faults at the interface *)

Section Boundary.
Context `{Solidity}.
Implicit Types (ctx : handle) (r : result (option string)) (t : list (event ErrorType)).

(** C9. In every run of Analyze, [warnHomonymDeclarations] is the call made
    right after an import resolution that succeeded, and it never reports
    failure.  A run that returns a document has made it; when it is the
    only call of the run that changes the diagnostic list, the context
    holds, after the successful call, the list it left, so that the
    diagnostics query answers with text whenever it left a warning: success
    of Analyze does not mean the query returns null. *)
Theorem homonym_warnings_survive_a_successful_analysis
    ctx (json name : option string) r (h : handle) t :
  sol_analyze_parsed_ast_json ctx json name = (r, h, t) ->
  (forall pre e post,
      t = pre ++ e :: post -> ev_call e = PerformImports -> ev_outcome e = Done ->
      exists w post', post = w :: post' /\ ev_call w = WarnHomonymDeclarations
                      /\ ev_outcome w <> Failed)
  /\ (forall doc, r = Ret (Some doc) ->
        exists c1 pre w post,
          h = Some c1 /\ t = pre ++ w :: post
          /\ ev_call w = WarnHomonymDeclarations /\ ev_outcome w = Done
          /\ (only_producer WarnHomonymDeclarations [] t ->
              errorList c1 = ev_errors w
              /\ (ev_errors w <> [] -> sol_parser_get_errors h <> None))).
Proof.
  intros Hrun.
  pose proof (analyze_checks _ _ _ _ _ _ Hrun) as Hc.
  apply checks_elim in Hc as (Hv & _ & _ & _ & _ & Hfollow & Honce & Hnever & _).
  split.
  - intros pre e post Hsplit Hcall Hdone.
    destruct (homonyms_follow_imports_spec t pre e post Hfollow Hsplit Hcall Hdone)
      as (w & post' & -> & Hw).
    exists w, post'. split; [reflexivity|]. split; [assumption|].
    intros Hfail. unfold never_fails in Hnever. rewrite forallb_forall in Hnever.
    assert (Hin : In w t).
    { rewrite Hsplit. apply in_or_app. right. right. now left. }
    apply Hnever, negb_true_iff in Hin.
    assert (failed_at WarnHomonymDeclarations w = true) by (apply failed_at_spec; auto).
    congruence.
  - intros doc ->.
    destruct ctx as [c|], json as [json|], name as [name|];
      try (cbn in Hrun; discriminate).
    pose proof (analyze_context _ _ _ _ _ _ Hrun) as (c1 & Hh & _ & _ & Hlast).
    assert (Hdoc : exists d, Ret (Some doc) = Ret (Some d)) by eauto.
    apply (verdict_document _ _ Hv) in Hdoc as [_ Hall].
    rewrite forallb_forall in Hall.
    assert (Hw : completed WarnHomonymDeclarations t = true).
    { apply Hall. unfold pipeline. simpl. tauto. }
    apply completed_spec in Hw as (w & Hin & Hcall & Hdone).
    apply in_split in Hin as (pre & post & Hsplit).
    exists c1, pre, w, post. repeat (split; [assumption|]).
    intros Honly.
    assert (Heq : errorList c1 = ev_errors w).
    { rewrite Hlast, Hsplit. rewrite Hsplit in Honly.
      apply (only_producer_last WarnHomonymDeclarations); [assumption|].
      intros e He. rewrite <- Hcall. rewrite Hsplit in Honce.
      now apply (calls_once_spec pre w post). }
    split; [assumption|].
    intros Hne. rewrite Hh, get_errors_none. congruence.
Qed.

Lemma parse_never_lets_std_escape ctx (text name : option string) r (h : handle) t :
  sol_parser_parse ctx text name = (r, h, t) ->
  (forall x, r = Throw x -> x = NonStdException
                            /\ exists e, In e t /\ ev_outcome e = Threw x)
  /\ (forall e x, In e t -> ev_outcome e = Threw x ->
                  if is_std_exception x then r = Ret None else r = Throw x).
Proof.
  destruct ctx as [c|], text as [text|], name as [name|];
    try (cbn; intros [= <- <- <-]; split; [discriminate|intros e x []]).
  unfold sol_parser_parse, sol_parser_parse_try, try_catch, bind,
    pure_call, invoke, clear_errorList, modify, ret, c_str, sol_parser_parse_catch.
  repeat (step; cbn).
  all: repeat match goal with x : exn |- _ => destruct x end; cbn in *; try discriminate.
  all: intros [= <- <- <-]; split.
  all: try (intros y [= <-]; split; [reflexivity|];
            first [ solve [eexists; split; [left; reflexivity|reflexivity]]
                  | solve [eexists; split; [right; left; reflexivity|reflexivity]]
                  | solve [eexists; split; [right; right; left; reflexivity|reflexivity]] ]).
  all: try discriminate.
  all: intros ev y Hin Hout; cbn in Hin;
    repeat (destruct Hin as [<-|Hin]; [cbn in Hout; try discriminate|]);
    try contradiction.
  all: try (injection Hout as <-; reflexivity).
Qed.

(** What the handlers of the interface catch.  No call of Analyze lets an
    exception escape: whatever is thrown inside it, of any type, is caught
    and the call returns null.  A call of Parse catches what derives from
    [std::exception] ([FatalError] included) and returns null; it has no
    handler for anything else. *)
Theorem faults_derived_from_std_exception_do_not_escape
    ctx (text name : option string) :
  (exists v, fst (fst (sol_analyze_parsed_ast_json ctx text name)) = Ret v)
  /\ (forall e x, In e (snd (sol_analyze_parsed_ast_json ctx text name)) ->
                  ev_outcome e = Threw x ->
                  fst (fst (sol_analyze_parsed_ast_json ctx text name)) = Ret None)
  /\ (forall x, fst (fst (sol_parser_parse ctx text name)) = Throw x ->
                is_std_exception x = false)
  /\ (forall e x, In e (snd (sol_parser_parse ctx text name)) ->
                  ev_outcome e = Threw x -> is_std_exception x = true ->
                  fst (fst (sol_parser_parse ctx text name)) = Ret None).
Proof.
  destruct (sol_analyze_parsed_ast_json ctx text name) as [[r h] t] eqn:Hrun.
  destruct (sol_parser_parse ctx text name) as [[r' h'] t'] eqn:Hparse.
  cbn [fst snd].
  apply analyze_checks, checks_elim in Hrun as (Hv & _).
  apply parse_never_lets_std_escape in Hparse as [Hesc Hcaught].
  split; [|split; [|split]].
  - destruct r as [v|x]; [eauto|discriminate].
  - intros e x Hin Hout. eapply verdict_not_done; eauto. rewrite Hout. discriminate.
  - intros x Hx. now destruct (Hesc x Hx) as [-> _].
  - intros e x Hin Hout Hstd. specialize (Hcaught e x Hin Hout).
    now rewrite Hstd in Hcaught.
Qed.

End Boundary.

(** ** The theorems at work on scripted runs *)

Section Scripted_runs.
Import Scripted.

Lemma run_parts (x : api (option string)) :
  x = (returned x, context_after x, history x).
Proof. now destruct x as [[r h] t]. Qed.

Lemma entry_in (n : nat) (x : api (option string)) :
  n < length (history x) -> In (entry n x) (history x).
Proof. apply List.nth_In. Qed.

Lemma history_parts (n : nat) (x : api (option string)) :
  n < length (history x) ->
  history x = entries_before n x ++ entry n x :: entries_after n x.
Proof.
  unfold entries_before, entries_after, entry. generalize (history x) as t.
  induction n as [|n IH]; intros [|e t] Hn; simpl in *; try lia.
  - reflexivity.
  - f_equal. apply IH. lia.
Qed.

(** In the run on a source with an undeclared identifier, name and type
    resolution reports failure at entry 10: nothing follows and null is
    returned. *)
Lemma abort_tier_failure_stops_the_pipeline_witness :
  (tier_of (ev_call (entry 10 run_undeclared)) = AbortOnFailure
   /\ ev_outcome (entry 10 run_undeclared) = Failed)
  /\ (entries_after 10 run_undeclared = [] /\ returned run_undeclared = Ret None).
Proof.
  split; [split; vm_compute; reflexivity|].
  apply (abort_tier_failure_stops_the_pipeline
           (Some used) (Some "undeclared"%string) (Some "A.sol"%string)
           (returned run_undeclared) (context_after run_undeclared)
           (history run_undeclared)
           (entries_before 10 run_undeclared) (entry 10 run_undeclared)
           (entries_after 10 run_undeclared)).
  - exact (run_parts run_undeclared).
  - apply history_parts. vm_compute. lia.
  - vm_compute. reflexivity.
  - vm_compute. reflexivity.
Defined.

(** In the run on a source with two type errors, type checking reports
    failure at entry 14: all five accumulate-tier calls were made and the
    context holds both diagnostics. *)
Lemma accumulate_tier_failure_does_not_stop_the_tier_witness :
  (In (entry 14 run_two_type_errors) (history run_two_type_errors)
   /\ tier_of (ev_call (entry 14 run_two_type_errors)) = AccumulateOnFailure
   /\ ev_outcome (entry 14 run_two_type_errors) = Failed)
  /\ calls_of_tier AccumulateOnFailure (history run_two_type_errors) = accumulate_tier
  /\ exists c1, context_after run_two_type_errors = Some c1
                /\ errorList c1 = [bad_assignment; bad_argument].
Proof.
  assert (Hin : In (entry 14 run_two_type_errors) (history run_two_type_errors)).
  { apply entry_in. vm_compute. lia. }
  assert (Htier : tier_of (ev_call (entry 14 run_two_type_errors)) = AccumulateOnFailure).
  { vm_compute. reflexivity. }
  assert (Hfail : ev_outcome (entry 14 run_two_type_errors) = Failed).
  { vm_compute. reflexivity. }
  split; [split; [exact Hin|split; [exact Htier|exact Hfail]]|].
  destruct (accumulate_tier_failure_does_not_stop_the_tier
              (Some used) (Some "two type errors"%string) (Some "A.sol"%string)
              (returned run_two_type_errors) (context_after run_two_type_errors)
              (history run_two_type_errors) (entry 14 run_two_type_errors)
              (run_parts run_two_type_errors) Hin Htier Hfail) as [Hall Hlist].
  clear Hin Htier Hfail. split.
  - apply Hall.
    + apply no_abort_failure_spec. vm_compute. reflexivity.
    + apply no_fault_spec. vm_compute. reflexivity.
  - clear Hall. destruct Hlist as (c1 & Hh & Heq & _); [vm_compute; reflexivity|].
    exists c1. split; [exact Hh|]. rewrite Heq. vm_compute. reflexivity.
Defined.

(** In the run on a source with an invalid override, contract-level checking
    reports failure at entry 13: no gated call is made. *)
Lemma gated_stages_run_only_while_nothing_failed_witness :
  (tier_of (ev_call (entry 13 run_bad_override)) = AccumulateOnFailure
   /\ ev_outcome (entry 13 run_bad_override) = Failed)
  /\ Forall (fun e => tier_of (ev_call e) <> Gated) (history run_bad_override).
Proof.
  assert (Htier : tier_of (ev_call (entry 13 run_bad_override)) = AccumulateOnFailure).
  { vm_compute. reflexivity. }
  assert (Hfail : ev_outcome (entry 13 run_bad_override) = Failed).
  { vm_compute. reflexivity. }
  split; [split; [exact Htier|exact Hfail]|].
  destruct (gated_stages_run_only_while_nothing_failed
              (Some used) (Some "bad override"%string) (Some "A.sol"%string)
              (returned run_bad_override) (context_after run_bad_override)
              (history run_bad_override) (run_parts run_bad_override))
    as (_ & Hskip & _).
  apply List.Forall_forall. intros e He.
  refine (Hskip (entry 13 run_bad_override) _ Htier Hfail e He).
  apply entry_in. vm_compute. lia.
Defined.

(** The text [{] is not JSON: the call returns null and leaves an empty
    diagnostic list in a context that held a diagnostic. *)
Lemma structural_failure_returns_null_without_diagnostics_witness :
  (exists x, parse_json "{" = Throw x)
  /\ exists c1 t,
       sol_analyze_parsed_ast_json (Some used) (Some "{"%string) (Some "A.sol"%string)
       = (Ret None, Some c1, t)
       /\ errorList c1 = []
       /\ sol_parser_get_errors (Some c1) = None
       /\ (forall e, In e t -> tier_of (ev_call e) = Codec).
Proof.
  assert (Hbad : exists x, parse_json "{" = Throw x).
  { exists StdException. vm_compute. reflexivity. }
  split; [exact Hbad|].
  apply (structural_failure_returns_null_without_diagnostics used "{" "A.sol").
  left. exact Hbad.
Defined.

(** The run on a source whose only diagnostic is the homonym warning returns
    a document, and the diagnostics query on the context then answers. *)
Lemma homonym_warnings_survive_a_successful_analysis_witness :
  returned run_homonym = Ret (Some "{ analysed }"%string)
  /\ only_producer WarnHomonymDeclarations [] (history run_homonym)
  /\ exists c1, context_after run_homonym = Some c1
                /\ errorList c1 <> []
                /\ sol_parser_get_errors (context_after run_homonym) <> None.
Proof.
  assert (Hdoc : returned run_homonym = Ret (Some "{ analysed }"%string)).
  { vm_compute. reflexivity. }
  assert (Honly : only_producer WarnHomonymDeclarations [] (history run_homonym)).
  { vm_compute. repeat split; try reflexivity; intros Hne; destruct (Hne eq_refl). }
  split; [exact Hdoc|]. split; [exact Honly|].
  destruct (homonym_warnings_survive_a_successful_analysis
              (Some fresh) (Some "homonym"%string) (Some "A.sol"%string)
              (returned run_homonym) (context_after run_homonym) (history run_homonym)
              (run_parts run_homonym)) as [_ Hsuccess].
  destruct (Hsuccess _ Hdoc) as (c1 & pre & w & post & Hh & Hsplit & Hcall & _ & Hlist).
  destruct (Hlist Honly) as [Heq Hquery]. clear Hlist Hsuccess.
  assert (Hw : ev_errors w <> []).
  { apply (leaves_diagnostics_spec WarnHomonymDeclarations (history run_homonym));
      [vm_compute; reflexivity| |exact Hcall].
    rewrite Hsplit. apply in_elt. }
  exists c1. split; [exact Hh|]. split; [rewrite Heq; exact Hw|exact (Hquery Hw)].
Defined.

(** A null text, with a context that holds a diagnostic. *)
Lemma null_argument_returns_null_and_leaves_the_context_witness :
  (Some used = None \/ @None string = None \/ Some "A.sol"%string = None)
  /\ sol_parser_parse (Some used) None (Some "A.sol"%string) = (Ret None, Some used, [])
  /\ sol_analyze_parsed_ast_json (Some used) None (Some "A.sol"%string)
     = (Ret None, Some used, []).
Proof.
  assert (Hnull : Some used = None \/ @None string = None \/ Some "A.sol"%string = None).
  { right. left. reflexivity. }
  split; [exact Hnull|].
  exact (null_argument_returns_null_and_leaves_the_context
           (Some used) None (Some "A.sol"%string) Hnull).
Defined.

(** The handlers of the two calls differ.  Were the parser to throw
    something that is not derived from [std::exception], neither of the two
    handlers of Parse would match and the exception would leave
    [sol_parser_parse]; on the same fault, thrown by the syntax checker,
    Analyze returns null: it ends its handlers with [catch (...)]. *)
Lemma parse_lets_a_fault_escape :
  returned run_odd_fault = Throw NonStdException
  /\ In (Event ParserParse (Threw NonStdException) []) (history run_odd_fault)
  /\ returned (analyse used "odd fault") = Ret None
  /\ In (Event CheckSyntax (Threw NonStdException) []) (history (analyse used "odd fault")).
Proof.
  vm_compute. split; [reflexivity|]. split; [left; reflexivity|].
  split; [reflexivity|]. do 3 right. left. reflexivity.
Qed.

(** The query after the run on the source with two type errors: two lines,
    in the order the type checker recorded them. *)
Example query_after_two_type_errors :
  sol_parser_get_errors (context_after run_two_type_errors)
  = Some ("TypeError: Type bool is not implicitly convertible to expected type uint256."
          +:+ newline
          +:+ "TypeError: Invalid type for argument in function call." +:+ newline).
Proof. vm_compute. reflexivity. Qed.

(** Documents that import to an empty map, to a map without the requested
    name, and to a map with a null pointer for it: null is returned, no pass
    is run, and the diagnostic the context held is gone. *)
Example analyse_without_an_imported_unit :
  forallb (fun text =>
             match analyse used text with
             | (Ret None, Some c1, [e1; e2]) =>
                 call_eqb (ev_call e1) Json_parse
                 && call_eqb (ev_call e2) JsonToSourceUnit
                 && match errorList c1 with [] => true | _ => false end
             | _ => false
             end)
          ["empty map"; "no entry"; "null entry"]%string
  = true.
Proof. vm_compute. reflexivity. Qed.

(** A syntax error: Parse returns null, the diagnostic stays in the context. *)
Example parse_missing_semicolon :
  returned (parse fresh "missing semicolon") = Ret None
  /\ option_map errorList (context_after (parse fresh "missing semicolon"))
     = Some [missing_semicolon].
Proof. vm_compute. split; reflexivity. Qed.

(** A source that parses: the document is the export at stage [Parsed]. *)
Example parse_plain :
  returned (parse used "plain") = Ret (Some "{ parsed }"%string)
  /\ option_map errorList (context_after (parse used "plain")) = Some [].
Proof. vm_compute. split; reflexivity. Qed.

End Scripted_runs.

(** ** Parsing: what [sol_parser_parse] returns and leaves *)

Section Parsing.
Context `{Solidity}.

(** The call, path by path: the parser is run on the emptied list with the
    context's own reporter, and nothing after it touches the context. *)
Lemma parse_run (c : SolParserContext) (source source_name : string) :
  sol_parser_parse (Some c) (Some source) (Some source_name)
  = let '(parsed, (rep, el)) := Parser_parse source source_name (errorReporter c) [] in
    let c1 := mkContext (errors c) el rep in
    match parsed with
    | Throw x => (parse_caught x, Some c1, [Event ParserParse (Threw x) el])
    | Ret None => (Ret None, Some c1, [Event ParserParse Failed el])
    | Ret (Some ast) =>
        match toJson Parsed {[ source_name := 0 ]} ast with
        | Throw x =>
            (parse_caught x, Some c1,
             [Event ParserParse Done el; Event ToJson (Threw x) el])
        | Ret json =>
            match jsonPrettyPrint json with
            | Throw x =>
                (parse_caught x, Some c1,
                 [Event ParserParse Done el; Event ToJson Done el;
                  Event JsonPrettyPrint (Threw x) el])
            | Ret doc =>
                (Ret (Some doc), Some c1,
                 [Event ParserParse Done el; Event ToJson Done el;
                  Event JsonPrettyPrint Done el])
            end
        end
    end.
Proof.
  unfold sol_parser_parse, sol_parser_parse_try, try_catch, bind,
    pure_call, invoke, clear_errorList, modify, ret, c_str, sol_parser_parse_catch,
    parse_caught.
  cbn.
  destruct (Parser_parse source source_name (errorReporter c) []) as [[[ast|]|x] [rep el]];
    cbn.
  - destruct (toJson Parsed {[source_name := 0]} ast) as [json|x]; cbn.
    + destruct (jsonPrettyPrint json) as [doc|x]; cbn; [reflexivity|].
      destruct x; reflexivity.
    + destruct x; reflexivity.
  - reflexivity.
  - destruct x; reflexivity.
Qed.

(** The context after the call. *)
Lemma parse_context (c : SolParserContext) (source source_name : string) :
  snd (fst (sol_parser_parse (Some c) (Some source) (Some source_name)))
  = Some (mkContext (errors c)
            (snd (snd (Parser_parse source source_name (errorReporter c) [])))
            (fst (snd (Parser_parse source source_name (errorReporter c) [])))).
Proof.
  rewrite parse_run.
  destruct (Parser_parse source source_name (errorReporter c) []) as [[[ast|]|x] [rep el]];
    cbn; try reflexivity.
  destruct (toJson Parsed {[source_name := 0]} ast) as [json|x]; cbn; [|reflexivity].
  destruct (jsonPrettyPrint json) as [d|x]; reflexivity.
Qed.

(** X1. Parse returns a document exactly when the parser, run with the
    context's reporter on an empty diagnostic list, returns an AST, and
    neither the export at stage [Parsed] (with the source unit at index 0)
    nor the printing throws; the document is that printed export. *)
Theorem parse_returns_the_printed_export_of_the_parsed_unit
    (c : SolParserContext) (source source_name doc : string) :
  fst (fst (sol_parser_parse (Some c) (Some source) (Some source_name))) = Ret (Some doc)
  <-> exists ast json,
        fst (Parser_parse source source_name (errorReporter c) []) = Ret (Some ast)
        /\ toJson Parsed {[ source_name := 0 ]} ast = Ret json
        /\ jsonPrettyPrint json = Ret doc.
Proof.
  rewrite parse_run.
  destruct (Parser_parse source source_name (errorReporter c) []) as [[[ast|]|x] [rep el]];
    cbn.
  - destruct (toJson Parsed {[source_name := 0]} ast) as [json|x] eqn:Hj; cbn.
    + destruct (jsonPrettyPrint json) as [d|x] eqn:Hp; cbn.
      * split.
        -- intros [= <-]. eauto.
        -- intros (ast' & json' & [= <-] & Hj' & Hp'). congruence.
      * split.
        -- unfold parse_caught. destruct (is_std_exception x); discriminate.
        -- intros (ast' & json' & [= <-] & Hj' & Hp'). congruence.
    + split.
      * unfold parse_caught. destruct (is_std_exception x); discriminate.
      * intros (ast' & json' & [= <-] & Hj' & _). congruence.
  - split; [discriminate|]. intros (ast' & json' & Hast & _). discriminate.
  - split.
    + unfold parse_caught. destruct (is_std_exception x); discriminate.
    + intros (ast' & json' & Hast & _). discriminate.
Qed.

(** X2. Whatever a call of Parse with non-null arguments returns, the
    context afterwards holds the reporter state and the diagnostic list
    exactly as the parser left them, the parser having started from an empty
    list: diagnostics of earlier calls are gone, the export and the printing
    change nothing, and every entry of the history shows that list.  When
    the parser returns no AST the call returns null without touching the
    exporter. *)
Theorem parse_leaves_what_the_parser_left
    (c : SolParserContext) (source source_name : string) :
  let parsed := Parser_parse source source_name (errorReporter c) [] in
  let run := sol_parser_parse (Some c) (Some source) (Some source_name) in
  snd (fst run) = Some (mkContext (errors c) (snd (snd parsed)) (fst (snd parsed)))
  /\ Forall (fun e => ev_errors e = snd (snd parsed)) (snd run)
  /\ (fst parsed = Ret None ->
      fst (fst run) = Ret None
      /\ snd run = [Event ParserParse Failed (snd (snd parsed))]).
Proof.
  cbv zeta. rewrite parse_run.
  destruct (Parser_parse source source_name (errorReporter c) []) as [[[ast|]|x] [rep el]];
    cbn.
  - destruct (toJson Parsed {[source_name := 0]} ast) as [json|x]; cbn.
    + destruct (jsonPrettyPrint json) as [d|x]; cbn;
        (split; [reflexivity|split; [repeat constructor|discriminate]]).
    + split; [reflexivity|split; [repeat constructor|discriminate]].
  - split; [reflexivity|split; [repeat constructor|auto]].
  - split; [reflexivity|split; [repeat constructor|discriminate]].
Qed.

(** X3. What Parse returns and the calls it makes depend on the context
    through its reporter only: on two contexts with the same reporter state,
    whatever diagnostics they hold, the value, the history and the list left
    in the context are the same. *)
Theorem parse_depends_on_the_reporter_only
    (c1 c2 : SolParserContext) (source source_name : option string) :
  errorReporter c1 = errorReporter c2 ->
  fst (fst (sol_parser_parse (Some c1) source source_name))
  = fst (fst (sol_parser_parse (Some c2) source source_name))
  /\ snd (sol_parser_parse (Some c1) source source_name)
     = snd (sol_parser_parse (Some c2) source source_name)
  /\ (source <> None -> source_name <> None ->
      option_map errorList (snd (fst (sol_parser_parse (Some c1) source source_name)))
      = option_map errorList (snd (fst (sol_parser_parse (Some c2) source source_name)))).
Proof.
  intros Hrep.
  destruct source as [source|], source_name as [source_name|];
    try (split; [reflexivity|split; [reflexivity|intros; congruence]]).
  rewrite !parse_run, Hrep.
  destruct (Parser_parse source source_name (errorReporter c2) []) as [[[ast|]|x] [rep el]];
    cbn.
  - destruct (toJson Parsed {[source_name := 0]} ast) as [json|x]; cbn.
    + destruct (jsonPrettyPrint json) as [d|x]; cbn; auto.
    + auto.
  - auto.
  - auto.
Qed.

End Parsing.

(** ** The pipeline by itself, and the order of the calls *)

Section Pipeline.
Context `{Solidity}.

Lemma is_prefix_spec (l1 l2 : list call) :
  is_prefix l1 l2 = true <-> exists rest, l2 = l1 ++ rest.
Proof.
  revert l2. induction l1 as [|c1 l1 IH]; intros l2; cbn [is_prefix].
  - split; [intros _; exists l2; reflexivity|reflexivity].
  - destruct l2 as [|c2 l2].
    + split; [discriminate|]. intros [rest Hrest]. discriminate.
    + rewrite andb_true_iff, call_eqb_spec, IH. split.
      * intros [-> [rest ->]]. exists rest. reflexivity.
      * intros [rest [= -> ->]]. split; [reflexivity|]. exists rest. reflexivity.
Qed.

Lemma analyzeSourceUnit_audit (_ast : SourceUnit) (_errors : ErrorList) :
  let '(r, (_, el), t) := analyzeSourceUnit _ast _errors in
  el = last_errors _errors t /\ pipeline_checks r t = true.
Proof.
  unfold analyzeSourceUnit, analyzeSourceUnit_try, try_catch, bind,
    pass, invoke, modify, ret, on_ast, on_locals, on_reporter, analyzeSourceUnit_catch.
  repeat (step; split_bools; cbn).
  all: repeat match goal with x : exn |- _ => destruct x end; cbn in *; try discriminate.
  all: repeat match goal with Hp : (_, _) = (_, _) |- _ => injection Hp as <- <- end.
  all: split; [reflexivity|lazy; reflexivity].
Qed.

Lemma analyze_order (c : SolParserContext) (json name : string) :
  order_checks (snd (sol_analyze_parsed_ast_json (Some c) (Some json) (Some name))) = true.
Proof.
  unfold sol_analyze_parsed_ast_json, sol_analyze_parsed_ast_json_try, try_catch,
    call_analyzeSourceUnit, analyzeSourceUnit, analyzeSourceUnit_try, try_catch, bind,
    pure_call, pass, invoke, clear_errorList, modify, ret, on_ast, on_locals,
    on_reporter, c_str, sol_analyze_parsed_ast_json_catch, analyzeSourceUnit_catch.
  repeat (step; split_bools; cbn).
  all: lazy; reflexivity.
Qed.

Lemma pipeline_checks_elim (r : result bool) (t : list (event ErrorType)) :
  pipeline_checks r t = true ->
  pipeline_verdict r t = true /\ is_prefix (map ev_call t) pipeline = true
  /\ t <> [] /\ last_if faulted t = true.
Proof.
  unfold pipeline_checks. rewrite !andb_true_iff. intros [[[Hv Hp] Hne] Hf].
  repeat split; try assumption. destruct t; [discriminate|discriminate].
Qed.

Lemma ended_by_throw_spec (x : exn) (t : list (event ErrorType)) :
  ended_by_throw x t = true -> exists pre e, t = pre ++ [e] /\ ev_outcome e = Threw x.
Proof.
  unfold ended_by_throw. destruct (last t) as [e|] eqn:Hlast; [|discriminate].
  rewrite bool_decide_eq_true. intros Ho.
  apply last_Some in Hlast as [pre ->]. eauto.
Qed.

(** X4. [analyzeSourceUnit] starts every run with the scope assignment,
    whatever it is handed, and returns [true] exactly when it has made all
    the calls of the pipeline, in order, and each of them ended without
    reporting failure and without a throw. *)
Theorem pipeline_returns_true_iff_every_call_succeeded
    (_ast : SourceUnit) (_errors : ErrorList) (r : result bool)
    (ast1 : SourceUnit) (el : ErrorList) (t : list (event ErrorType)) :
  analyzeSourceUnit _ast _errors = (r, (ast1, el), t) ->
  (exists e rest, t = e :: rest /\ ev_call e = AssignScopes)
  /\ (r = Ret true <->
      map ev_call t = pipeline /\ forall e, In e t -> ev_outcome e = Done).
Proof.
  intros Hrun. pose proof (analyzeSourceUnit_audit _ast _errors) as Ha.
  rewrite Hrun in Ha. destruct Ha as [_ Hc].
  apply pipeline_checks_elim in Hc as (Hv & Hp & Hne & _).
  split.
  - destruct t as [|e rest]; [congruence|]. exists e, rest. split; [reflexivity|].
    cbn in Hp. apply andb_true_iff in Hp as [Hp _]. now apply call_eqb_spec.
  - destruct r as [[|]|x]; cbn [pipeline_verdict] in Hv.
    + apply andb_true_iff in Hv as [Hd Hcalls].
      apply bool_decide_eq_true in Hcalls. rewrite all_done_spec in Hd. tauto.
    + apply andb_true_iff in Hv as [Hd _]. apply negb_true_iff in Hd.
      split; [discriminate|]. intros [_ Hall]. rewrite <- all_done_spec in Hall. congruence.
    + apply andb_true_iff in Hv as [_ Hend].
      apply ended_by_throw_spec in Hend as (pre & e & -> & Ho).
      split; [discriminate|]. intros [_ Hall].
      specialize (Hall e). rewrite Ho in Hall.
      discriminate Hall. apply in_or_app. right. now left.
Qed.

(** X5. [analyzeSourceUnit] lets no exception derived from [std::exception]
    out: when a call throws one, it returns [false].  It has no handler for
    anything else: when a call throws something that is not derived from
    [std::exception], that very exception leaves [analyzeSourceUnit], and
    nothing else ever leaves it; the call that threw is the last it made.
    The list it was handed by reference is, afterwards, the list as the
    last call left it, also when it returns [false] or is left by a throw. *)
Theorem pipeline_turns_std_exceptions_into_false
    (_ast : SourceUnit) (_errors : ErrorList) (r : result bool)
    (ast1 : SourceUnit) (el : ErrorList) (t : list (event ErrorType)) :
  analyzeSourceUnit _ast _errors = (r, (ast1, el), t) ->
  (forall e x, In e t -> ev_outcome e = Threw x -> is_std_exception x = true ->
               r = Ret false)
  /\ (forall e x, In e t -> ev_outcome e = Threw x -> is_std_exception x = false ->
                  r = Throw x)
  /\ (forall x, r = Throw x ->
        is_std_exception x = false
        /\ exists pre e, t = pre ++ [e] /\ ev_outcome e = Threw x)
  /\ el = last_errors _errors t.
Proof.
  intros Hrun. pose proof (analyzeSourceUnit_audit _ast _errors) as Ha.
  rewrite Hrun in Ha. destruct Ha as [Hel Hc].
  apply pipeline_checks_elim in Hc as (Hv & _ & _ & Hlast).
  split; [|split; [|split; [|exact Hel]]].
  - intros e x Hin Ho Hstd.
    destruct r as [[|]|y]; cbn [pipeline_verdict] in Hv.
    + apply andb_true_iff in Hv as [Hd _]. rewrite all_done_spec in Hd.
      apply Hd in Hin. congruence.
    + reflexivity.
    + apply andb_true_iff in Hv as [Hy Hend]. apply negb_true_iff in Hy.
      apply ended_by_throw_spec in Hend as (pre & e' & -> & Ho').
      apply in_split in Hin as (pre1 & post1 & Hsplit).
      assert (Hpost : post1 = []).
      { eapply last_if_spec; [exact Hlast|exact Hsplit|]. apply faulted_spec. eauto. }
      subst post1. apply app_inj_tail in Hsplit as [_ ->]. congruence.
  - intros e x Hin Ho Hstd.
    destruct r as [[|]|y]; cbn [pipeline_verdict] in Hv.
    + apply andb_true_iff in Hv as [Hd _]. rewrite all_done_spec in Hd.
      apply Hd in Hin. congruence.
    + apply andb_true_iff in Hv as [_ Hall].
      rewrite forallb_forall in Hall. specialize (Hall e Hin).
      rewrite Ho in Hall. congruence.
    + apply andb_true_iff in Hv as [_ Hend].
      apply ended_by_throw_spec in Hend as (pre & e' & -> & Ho').
      apply in_split in Hin as (pre1 & post1 & Hsplit).
      assert (Hpost : post1 = []).
      { eapply last_if_spec; [exact Hlast|exact Hsplit|]. apply faulted_spec. eauto. }
      subst post1. apply app_inj_tail in Hsplit as [_ ->]. congruence.
  - intros x ->. cbn [pipeline_verdict] in Hv.
    apply andb_true_iff in Hv as [Hx Hend]. apply negb_true_iff in Hx.
    split; [exact Hx|]. now apply ended_by_throw_spec.
Qed.

Lemma order_checks_all (ctx : handle) (json name : option string) :
  order_checks (snd (sol_analyze_parsed_ast_json ctx json name)) = true.
Proof.
  destruct ctx as [c|], json as [json|], name as [name|]; try reflexivity.
  apply analyze_order.
Qed.

(** X6. The calls of every run of Analyze are a beginning of one fixed
    sequence: JSON parsing, import, the passes in the order of the pipeline,
    export, printing, the call-graph loop being one entry of the history.
    No call is made out of that order, none is made twice, and none is made
    before every call that stands before it in the sequence has been made. *)
Theorem analyze_calls_follow_one_sequence
    (ctx : handle) (json name : option string) :
  exists rest,
    analyze_calls
    = map ev_call (snd (sol_analyze_parsed_ast_json ctx json name)) ++ rest.
Proof.
  pose proof (order_checks_all ctx json name) as Ho.
  unfold order_checks in Ho. apply andb_true_iff in Ho as [Hp _].
  now apply is_prefix_spec.
Qed.

(** X7. A run of Analyze in which an accumulate-tier call reported failure,
    and which neither an abort-tier failure nor a throw ended, has made
    exactly the calls from JSON parsing through type checking: every pass up
    to the type checker, nothing after it, and no export. *)
Theorem degraded_run_ends_with_type_checking
    (ctx : handle) (json name : option string) (e : event ErrorType) :
  let t := snd (sol_analyze_parsed_ast_json ctx json name) in
  In e t ->
  tier_of (ev_call e) = AccumulateOnFailure ->
  ev_outcome e = Failed ->
  (forall e', In e' t -> tier_of (ev_call e') = AbortOnFailure ->
              ev_outcome e' <> Failed) ->
  (forall e' x, In e' t -> ev_outcome e' <> Threw x) ->
  map ev_call t = calls_through_type_checking.
Proof.
  cbv zeta. intros Hin Htier Hfail Hnoabort Hnothrow.
  pose proof (order_checks_all ctx json name) as Ho.
  unfold order_checks in Ho. apply andb_true_iff in Ho as [_ Hd].
  unfold degraded_run_stops in Hd.
  set (t := snd (sol_analyze_parsed_ast_json ctx json name)) in *.
  assert (Hdeg : existsb degraded t = true).
  { apply existsb_exists. exists e. split; [assumption|]. apply degraded_spec. auto. }
  assert (Hab : existsb aborted t = false).
  { apply not_true_is_false. intros Hex.
    apply existsb_exists in Hex as [e' [He' Hb]]. apply aborted_spec in Hb as [Hb1 Hb2].
    exact (Hnoabort e' He' Hb1 Hb2). }
  assert (Hft : existsb faulted t = false).
  { apply not_true_is_false. intros Hex.
    apply existsb_exists in Hex as [e' [He' Hb]]. apply faulted_spec in Hb as [x Hx].
    exact (Hnothrow e' x He' Hx). }
  rewrite Hdeg, Hab, Hft in Hd. cbn [andb negb implb] in Hd.
  now apply bool_decide_eq_true in Hd.
Qed.

End Pipeline.

(** ** Diagnostics only accumulate *)

Section Accumulation.
Context `{Solidity}.

Lemma ascending_last {K : Type} (d : list (Error K)) (t : list (event K)) :
  ascending d t -> d `prefix_of` last_errors d t.
Proof.
  revert d. induction t as [|e t IH]; intros d Ha; [reflexivity|].
  destruct Ha as [Hd Ha]. cbn. change (d `prefix_of` last_errors (ev_errors e) t).
  etrans; [exact Hd|]. now apply IH.
Qed.

Lemma ascending_split {K : Type} (d : list (Error K)) (pre : list (event K)) e post :
  ascending d (pre ++ e :: post) ->
  d `prefix_of` ev_errors e
  /\ (forall e', In e' pre -> ev_errors e' `prefix_of` ev_errors e)
  /\ ev_errors e `prefix_of` last_errors d (pre ++ e :: post).
Proof.
  revert d. induction pre as [|e0 pre IH]; intros d Ha.
  - destruct Ha as [Hd Ha]. split; [exact Hd|]. split; [intros e' []|].
    cbn. change (ev_errors e `prefix_of` last_errors (ev_errors e) post).
    now apply ascending_last.
  - destruct Ha as [Hd Ha]. destruct (IH _ Ha) as (H1 & H2 & H3).
    split; [etrans; eassumption|]. split.
    + intros e' [<-|Hin]; [exact H1|now apply H2].
    + exact H3.
Qed.

Lemma analyze_ascending (c : SolParserContext) (json name : string) :
  passes_only_append ->
  ascending [] (snd (sol_analyze_parsed_ast_json (Some c) (Some json) (Some name))).
Proof.
  intros (Hres & Hsyn & Hreg & Himp & Hhom & Hdoc & Hnam & Hdecl & Hval & Hclc & Htc
          & Hana & Hpost & Hfin & Hptc).
  unfold extends_list in *.
  unfold sol_analyze_parsed_ast_json, sol_analyze_parsed_ast_json_try, try_catch,
    call_analyzeSourceUnit, analyzeSourceUnit, analyzeSourceUnit_try, try_catch, bind,
    pure_call, pass, invoke, clear_errorList, modify, ret, on_ast, on_locals,
    on_reporter, c_str, sol_analyze_parsed_ast_json_catch, analyzeSourceUnit_catch.
  repeat (step; split_bools; cbn).
  all: repeat match goal with Hp : (_, _) = (_, _) |- _ => injection Hp as <- <- end.
  all: repeat match goal with
              | Heq : _ = (_, _) |- _ =>
                  first [ apply Hres in Heq | apply Hsyn in Heq | apply Hreg in Heq
                        | apply Himp in Heq | apply Hhom in Heq | apply Hdoc in Heq
                        | apply Hnam in Heq | apply Hdecl in Heq | apply Hval in Heq
                        | apply Hclc in Heq | apply Htc in Heq | apply Hana in Heq
                        | apply Hpost in Heq | apply Hfin in Heq | apply Hptc in Heq
                        | clear Heq ]
              end.
  all: cbn in *.
  all: repeat split; first [reflexivity | apply prefix_nil | assumption].
Qed.

(** X8. Where every pass only appends to the diagnostic list it is handed,
    the list only grows during a call of Analyze: the list after each call
    begins with the list after every earlier call, and the list the context
    holds when Analyze returns begins with each of them.  No diagnostic
    recorded during the call is lost, whatever the call returns. *)
Theorem diagnostics_only_accumulate
    (c : SolParserContext) (json name : string)
    (r : result (option string)) (h : handle) (t : list (event ErrorType)) :
  passes_only_append ->
  sol_analyze_parsed_ast_json (Some c) (Some json) (Some name) = (r, h, t) ->
  exists c1,
    h = Some c1
    /\ forall pre e post,
         t = pre ++ e :: post ->
         (forall e', In e' pre -> ev_errors e' `prefix_of` ev_errors e)
         /\ ev_errors e `prefix_of` errorList c1.
Proof.
  intros Happ Hrun.
  pose proof (analyze_ascending c json name Happ) as Hasc. rewrite Hrun in Hasc.
  destruct (analyze_context _ _ _ _ _ _ Hrun) as (c1 & Hh & _ & _ & Hlast).
  exists c1. split; [exact Hh|]. intros pre e post ->.
  destruct (ascending_split _ _ _ _ Hasc) as (_ & Hpre & Hend).
  split; [exact Hpre|]. now rewrite Hlast.
Qed.

End Accumulation.

(** ** The call-graph loop *)

Section CallGraphs.
Context `{Solidity}.

(** The loop over a list of contracts followed by another. *)
Lemma assignCallGraphs_app (cs1 cs2 : list ContractDefinition) (_ast : SourceUnit) :
  assignCallGraphs (cs1 ++ cs2) _ast
  = match assignCallGraphs cs1 _ast with
    | (Ret _, ast1) => assignCallGraphs cs2 ast1
    | (Throw x, ast1) => (Throw x, ast1)
    end.
Proof.
  revert _ast. induction cs1 as [|contract cs1 IH]; intros _ast; [reflexivity|].
  cbn [assignCallGraphs app].
  destruct (buildCreationGraph _ast contract) as [creation|x]; [|reflexivity].
  destruct (buildDeployedGraph _ contract creation) as [deployed|x]; [|reflexivity].
  apply IH.
Qed.

(** X9. The call-graph loop takes the contracts in order and ends at the
    first throw.  When the creation-graph builder throws at a contract, the
    AST is left as the contracts before it made it; when the deployed-graph
    builder throws, the contract keeps the creation graph just stored and
    has no deployed graph; the contracts after it are not visited.  The
    deployed-graph builder is handed the creation graph just built and the
    AST in which it is already stored. *)
Theorem call_graph_loop_ends_at_the_first_throw
    (before : list ContractDefinition) (contract : ContractDefinition)
    (after : list ContractDefinition) (_ast ast1 : SourceUnit) :
  assignCallGraphs before _ast = (Ret tt, ast1) ->
  (forall x, buildCreationGraph ast1 contract = Throw x ->
             assignCallGraphs (before ++ contract :: after) _ast = (Throw x, ast1))
  /\ (forall creation x,
        buildCreationGraph ast1 contract = Ret creation ->
        buildDeployedGraph (set_creationCallGraph contract creation ast1)
                           contract creation = Throw x ->
        assignCallGraphs (before ++ contract :: after) _ast
        = (Throw x, set_creationCallGraph contract creation ast1))
  /\ (forall creation deployed,
        buildCreationGraph ast1 contract = Ret creation ->
        buildDeployedGraph (set_creationCallGraph contract creation ast1)
                           contract creation = Ret deployed ->
        assignCallGraphs (before ++ contract :: after) _ast
        = assignCallGraphs after
            (set_deployedCallGraph contract deployed
               (set_creationCallGraph contract creation ast1))).
Proof.
  intros Hbefore. rewrite assignCallGraphs_app, Hbefore. cbn [assignCallGraphs].
  split; [|split].
  - intros x ->. reflexivity.
  - intros creation x -> ->. reflexivity.
  - intros creation deployed -> ->. reflexivity.
Qed.

End CallGraphs.

(** ** Analyze as a composition *)

Section Composition.
Context `{Solidity}.

(** The call, stage by stage. *)
Lemma analyze_run (c : SolParserContext) (json name : string) :
  sol_analyze_parsed_ast_json (Some c) (Some json) (Some name)
  = match parse_json json with
    | Throw x => (Ret None, Some (with_errorList c []), [Event Json_parse (Threw x) []])
    | Ret astJson =>
        match jsonToSourceUnit {[ name := astJson ]} with
        | Throw x =>
            (Ret None, Some (with_errorList c []),
             [Event Json_parse Done []; Event JsonToSourceUnit (Threw x) []])
        | Ret asts =>
            let imports := [Event Json_parse Done []; Event JsonToSourceUnit Done []] in
            match imported asts name with
            | None => (Ret None, Some (with_errorList c []), imports)
            | Some ast =>
                let '(r, (ast1, el), t) := analyzeSourceUnit ast [] in
                let c1 := with_errorList c el in
                match r with
                | Throw x => (Ret None, Some c1, imports ++ t)
                | Ret false => (Ret None, Some c1, imports ++ t)
                | Ret true =>
                    match toJson AnalysisSuccessful {[ name := 0 ]} ast1 with
                    | Throw x =>
                        (Ret None, Some c1, imports ++ t ++ [Event ToJson (Threw x) el])
                    | Ret analyzedJson =>
                        match jsonPrettyPrint analyzedJson with
                        | Throw x =>
                            (Ret None, Some c1,
                             imports ++ t ++ [Event ToJson Done el;
                                              Event JsonPrettyPrint (Threw x) el])
                        | Ret doc =>
                            (Ret (Some doc), Some c1,
                             imports ++ t ++ [Event ToJson Done el;
                                              Event JsonPrettyPrint Done el])
                        end
                    end
                end
            end
        end
    end.
Proof.
  unfold sol_analyze_parsed_ast_json, sol_analyze_parsed_ast_json_try, try_catch,
    call_analyzeSourceUnit, bind, pure_call, invoke, clear_errorList, modify, ret,
    c_str, sol_analyze_parsed_ast_json_catch, with_errorList.
  cbn.
  destruct (parse_json json) as [astJson|x]; cbn; [|destruct x; reflexivity].
  destruct (jsonToSourceUnit {[name := astJson]}) as [asts|x]; cbn;
    [|destruct x; reflexivity].
  destruct (imported asts name) as [ast|]; cbn; [|reflexivity].
  destruct (analyzeSourceUnit ast []) as [[r [ast1 el]] t]; cbn.
  destruct r as [[|]|x]; cbn.
  - destruct (toJson AnalysisSuccessful {[name := 0]} ast1) as [analyzedJson|x]; cbn.
    + destruct (jsonPrettyPrint analyzedJson) as [doc|x]; cbn.
      * rewrite ?app_nil_r. reflexivity.
      * destruct x; cbn; rewrite ?app_nil_r; reflexivity.
    + destruct x; cbn; rewrite ?app_nil_r; reflexivity.
  - rewrite ?app_nil_r. reflexivity.
  - destruct x; cbn; rewrite ?app_nil_r; reflexivity.
Qed.

(** The import hands over a unit exactly when the map holds a non-null
    pointer under the name: a map with such an entry is not empty. *)
Lemma imported_spec (asts : gmap string (option SourceUnit)) (nameStr : string)
    (ast : SourceUnit) :
  imported asts nameStr = Some ast <-> asts !! nameStr = Some (Some ast).
Proof.
  unfold imported. destruct (Nat.eqb_spec (size asts) 0) as [Hsize|Hsize].
  - apply map_size_empty_iff in Hsize. subst asts. rewrite lookup_empty.
    split; discriminate.
  - destruct (asts !! nameStr) as [[ast'|]|]; split; congruence.
Qed.

(** X10. Analyze returns a document exactly when the text parses as JSON,
    the import of the one-entry map (the name to the parsed JSON) returns a
    map with a non-null unit under that name, [analyzeSourceUnit] on that
    unit and an empty list returns [true], and the export at stage
    [AnalysisSuccessful] of the unit as the analysis left it, and its
    printing, do not throw; the document is that printed export. *)
Theorem analyze_returns_the_printed_export_of_the_analysed_unit
    (c : SolParserContext) (json name doc : string) :
  fst (fst (sol_analyze_parsed_ast_json (Some c) (Some json) (Some name))) = Ret (Some doc)
  <-> exists astJson asts ast ast1 el t analyzedJson,
        parse_json json = Ret astJson
        /\ jsonToSourceUnit {[ name := astJson ]} = Ret asts
        /\ asts !! name = Some (Some ast)
        /\ analyzeSourceUnit ast [] = (Ret true, (ast1, el), t)
        /\ toJson AnalysisSuccessful {[ name := 0 ]} ast1 = Ret analyzedJson
        /\ jsonPrettyPrint analyzedJson = Ret doc.
Proof.
  rewrite analyze_run. split.
  - destruct (parse_json json) as [astJson|x] eqn:Hparse; [|discriminate].
    destruct (jsonToSourceUnit {[name := astJson]}) as [asts|x] eqn:Himport;
      [|discriminate].
    cbv zeta. destruct (imported asts name) as [ast|] eqn:Himp; [|discriminate].
    apply imported_spec in Himp.
    destruct (analyzeSourceUnit ast []) as [[r [ast1 el]] t] eqn:Hrun.
    destruct r as [[|]|x]; try discriminate.
    destruct (toJson AnalysisSuccessful {[name := 0]} ast1) as [analyzedJson|x] eqn:Hj;
      [|discriminate].
    destruct (jsonPrettyPrint analyzedJson) as [d|x] eqn:Hp; [|discriminate].
    cbn. intros [= <-]. exists astJson, asts, ast, ast1, el, t, analyzedJson.
    repeat split; try assumption; reflexivity.
  - intros (astJson & asts & ast & ast1 & el & t & analyzedJson
            & -> & -> & Hl & Hrun & Hj & Hp).
    apply imported_spec in Hl. cbv zeta. rewrite Hl, Hrun, Hj, Hp. reflexivity.
Qed.

(** X11. Analyze enters the pipeline (it calls the scope assignment) exactly
    when the text parses, the import returns, and the imported map holds a
    non-null unit under the requested name.  The emptiness test on the map
    decides nothing that the lookup does not. *)
Theorem analyze_enters_the_pipeline_iff_a_unit_was_imported
    (c : SolParserContext) (json name : string) :
  In AssignScopes
     (map ev_call (snd (sol_analyze_parsed_ast_json (Some c) (Some json) (Some name))))
  <-> exists astJson asts ast,
        parse_json json = Ret astJson
        /\ jsonToSourceUnit {[ name := astJson ]} = Ret asts
        /\ asts !! name = Some (Some ast).
Proof.
  rewrite analyze_run. split.
  - destruct (parse_json json) as [astJson|x] eqn:Hparse.
    2: { cbn. intros [Hc|[]]. discriminate. }
    destruct (jsonToSourceUnit {[name := astJson]}) as [asts|x] eqn:Himport.
    2: { cbn. intros [Hc|[Hc|[]]]; discriminate. }
    cbv zeta. destruct (imported asts name) as [ast|] eqn:Himp.
    2: { cbn. intros [Hc|[Hc|[]]]; discriminate. }
    apply imported_spec in Himp. intros _. exists astJson, asts, ast. auto.
  - intros (astJson & asts & ast & -> & -> & Hl).
    apply imported_spec in Hl. cbv zeta. rewrite Hl.
    pose proof (analyzeSourceUnit_audit ast []) as Ha.
    destruct (analyzeSourceUnit ast []) as [[r [ast1 el]] t].
    destruct Ha as [_ Hc]. apply pipeline_checks_elim in Hc as (_ & Hp & Hne & _).
    destruct t as [|e t]; [congruence|].
    cbn in Hp. apply andb_true_iff in Hp as [He _]. apply call_eqb_spec in He.
    assert (Hin : forall rest, In AssignScopes
                    (map ev_call ([Event Json_parse Done []; Event JsonToSourceUnit Done []]
                                  ++ (e :: t) ++ rest))).
    { intros rest. cbn. right. right. left. exact He. }
    destruct r as [[|]|x].
    + destruct (toJson AnalysisSuccessful {[name := 0]} ast1) as [analyzedJson|x].
      * destruct (jsonPrettyPrint analyzedJson) as [d|x]; apply Hin.
      * apply Hin.
    + specialize (Hin []). rewrite app_nil_r in Hin. exact Hin.
    + specialize (Hin []). rewrite app_nil_r in Hin. exact Hin.
Qed.

(** X12. An Analyze call leaves no trace for the call that follows it on the
    same context: a Parse or an Analyze with non-null arguments made after
    it returns the same value, makes the same calls and leaves the same
    context as if it had been made in its place.  Analyze changes nothing
    of a context but the diagnostic list, which the next call empties. *)
Theorem analyze_leaves_no_trace_for_the_next_call
    (c : SolParserContext) (json name : option string) (text source_name : string) :
  sol_parser_parse (snd (fst (sol_analyze_parsed_ast_json (Some c) json name)))
                   (Some text) (Some source_name)
  = sol_parser_parse (Some c) (Some text) (Some source_name)
  /\ sol_analyze_parsed_ast_json
       (snd (fst (sol_analyze_parsed_ast_json (Some c) json name)))
       (Some text) (Some source_name)
     = sol_analyze_parsed_ast_json (Some c) (Some text) (Some source_name).
Proof.
  assert (Hafter : exists c1,
             snd (fst (sol_analyze_parsed_ast_json (Some c) json name)) = Some c1
             /\ errors c1 = errors c /\ errorReporter c1 = errorReporter c).
  { destruct json as [json|], name as [name|]; try (exists c; cbn; solve [auto]).
    destruct (sol_analyze_parsed_ast_json (Some c) (Some json) (Some name))
      as [[r h] t] eqn:Hrun.
    destruct (analyze_context _ _ _ _ _ _ Hrun) as (c1 & Hh & He & Hr & _).
    exists c1. auto. }
  destruct Hafter as (c1 & -> & He & Hr). split.
  - rewrite !parse_run, He, Hr. reflexivity.
  - rewrite !analyze_run. unfold with_errorList. rewrite He, Hr. reflexivity.
Qed.

(** X13. Parse carries the state of the context's reporter from one call to
    the next, and nothing else: in the second of two Parse calls on a
    context the parser is handed an empty diagnostic list and the reporter
    as the parser of the first call left it, and the context then holds
    what that second parser call left. *)
Theorem parse_hands_the_reporter_to_the_next_parse
    (c : SolParserContext) (text1 name1 text2 name2 : string) :
  let parsed1 := Parser_parse text1 name1 (errorReporter c) [] in
  let parsed2 := Parser_parse text2 name2 (fst (snd parsed1)) [] in
  snd (fst (sol_parser_parse
              (snd (fst (sol_parser_parse (Some c) (Some text1) (Some name1))))
              (Some text2) (Some name2)))
  = Some (mkContext (errors c) (snd (snd parsed2)) (fst (snd parsed2))).
Proof.
  cbv zeta. rewrite (parse_context c text1 name1), parse_context. reflexivity.
Qed.

End Composition.

(** ** The diagnostics text and the earlier wrapper *)

Section Texts.
Context `{Solidity}.

Lemma diagnostic_text_app (l1 l2 : ErrorList) :
  diagnostic_text (l1 ++ l2) = diagnostic_text l1 +:+ diagnostic_text l2.
Proof.
  induction l1 as [|error l1 IH]; [reflexivity|].
  unfold diagnostic_text in *. cbn [app map fold_right].
  rewrite IH, append_assoc. reflexivity.
Qed.

(** X14. The text of the diagnostics query grows with the list: when
    diagnostics are appended to a list that is not empty, the query returns
    the text it returned before, followed by the lines of the diagnostics
    appended. *)
Theorem query_text_grows_with_the_list
    (c c1 : SolParserContext) (appended : ErrorList) (text : string) :
  errorList c1 = errorList c ++ appended ->
  sol_parser_get_errors (Some c) = Some text ->
  sol_parser_get_errors (Some c1)
  = Some (text +:+ fold_right String.append EmptyString
                     (map (fun error => formatErrorType (type error) +:+ ": "
                                        +:+ what error +:+ newline) appended)).
Proof.
  intros Hlist Htext. rewrite get_errors_text in *. rewrite Hlist, diagnostic_text_app.
  destruct (Nat.eqb_spec (String.length (diagnostic_text (errorList c))) 0) as [|Hlen];
    [discriminate|].
  injection Htext as <-.
  destruct (Nat.eqb_spec
              (String.length (diagnostic_text (errorList c) +:+ diagnostic_text appended)) 0)
    as [Hzero|_]; [|reflexivity].
  rewrite length_append in Hzero. lia.
Qed.

End Texts.

Section EarlierWrapper.
Context `{Solidity} `{!EarlierCodec}.

(** X15. The two wrappers print the same diagnostics: where the type name of
    every diagnostic of the list is the formatted name of its type, the
    earlier query returns what the present one returns. *)
Theorem earlier_query_agrees (c : SolParserContext) :
  (forall error, In error (errorList c) -> typeName error = formatErrorType (type error)) ->
  Earlier.sol_parser_get_errors (Some c) = sol_parser_get_errors (Some c).
Proof.
  intros Hname. unfold Earlier.sol_parser_get_errors, sol_parser_get_errors.
  assert (Hfold : forall oss,
             fold_left Earlier.put_error (errorList c) oss
             = fold_left put_error (errorList c) oss).
  { revert Hname. generalize (errorList c) as l.
    induction l as [|error l IH]; intros Hname oss; [reflexivity|].
    cbn [fold_left]. rewrite IH by (intros e He; apply Hname; now right).
    unfold Earlier.put_error, put_error. rewrite Hname by now left. reflexivity. }
  rewrite Hfold. reflexivity.
Qed.

(** X16. The two wrappers parse alike: where the earlier exporter followed
    by the styled stream writer gives, for every unit, what the export at
    stage [Parsed] followed by the pretty printer gives, the earlier Parse
    returns the same value and leaves the same context as the present one,
    on every context and arguments, null ones included.  The compact writer
    is never used. *)
Theorem earlier_parse_agrees
    (ctx : handle) (source source_name : option string) :
  (forall sourceIndices ast,
      match exporter_toJson sourceIndices ast with
      | Ret json => stream_styled json
      | Throw x => Throw x
      end
      = match toJson Parsed sourceIndices ast with
        | Ret json => jsonPrettyPrint json
        | Throw x => Throw x
        end) ->
  fst (Earlier.sol_parser_parse ctx source source_name)
  = fst (sol_parser_parse ctx source source_name).
Proof.
  intros Hcodec.
  destruct ctx as [c|], source as [source|], source_name as [source_name|];
    try reflexivity.
  rewrite parse_run.
  unfold Earlier.sol_parser_parse, Earlier.sol_parser_parse_try, try_catch, bind,
    pure_call, invoke, clear_errorList, modify, ret, c_str,
    Earlier.sol_parser_parse_catch, parse_caught.
  cbn.
  destruct (Parser_parse source source_name (errorReporter c) []) as [[[ast|]|x] [rep el]];
    cbn; [|reflexivity|destruct x; reflexivity].
  specialize (Hcodec (<[source_name := 0]> ∅) ast).
  change (<[source_name := 0]> (∅ : gmap string nat)) with ({[source_name := 0]} : gmap string nat) in *.
  destruct (exporter_toJson {[source_name := 0]} ast) as [json|x];
    destruct (toJson Parsed {[source_name := 0]} ast) as [json'|x']; cbn.
  - destruct (stream_styled json) as [d|x]; destruct (jsonPrettyPrint json') as [d'|x'];
      cbn; try discriminate.
    + injection Hcodec as <-. reflexivity.
    + injection Hcodec as <-. destruct x; reflexivity.
  - destruct (stream_styled json) as [d|x]; cbn; try discriminate.
    injection Hcodec as <-. destruct x; reflexivity.
  - destruct (jsonPrettyPrint json') as [d'|x']; cbn; try discriminate.
    injection Hcodec as <-. destruct x; reflexivity.
  - injection Hcodec as <-. destruct x; reflexivity.
Qed.

End EarlierWrapper.

(** ** The JavaScript binding releases what it is handed *)

Section EmscriptenBinding.
Import Emscripten.
Context `{Zig}.

Lemma strings_released_app (t1 t2 : list ffi) :
  strings_released t1 -> strings_released t2 -> strings_released (t1 ++ t2).
Proof.
  revert t1. fix IH 1. intros [|e t1] H1 H2; [exact H2|].
  destruct e as [f h texts optional [p|]| | |]; try destruct H1.
  - destruct t1 as [|[| |q|] t1]; try destruct H1.
    cbn. split; [assumption|]. apply IH; assumption.
  - cbn. apply IH; assumption.
Qed.

Lemma c_str_or_null_spec (s : string) :
  (c_str_or_null s = None <-> String.length s = 0)
  /\ forall s', c_str_or_null s = Some s' -> String.length s = String.length s'.
Proof.
  destruct s as [|a s]; cbn; split; try split; try discriminate; try reflexivity.
  intros s' [= <-]. reflexivity.
Qed.

Lemma take_run (result : option pointer) (z : ZigState) :
  take result z
  = match result with
    | Some p => (c_string_at p z, shadow_free_string p z, [Released p])
    | None => (EmptyString, z, [])
    end.
Proof. destruct result; reflexivity. Qed.

Lemma perform_run (this : Shadow) (u : use) (z : ZigState) :
  exists f h texts optional result z1,
    perform this u z
    = (match result with Some p => c_string_at p z1 | None => EmptyString end,
       match result with Some p => shadow_free_string p z1 | None => z1 end,
       Called f h texts optional result
       :: match result with Some p => [Released p] | None => [] end)
    /\ well_formed_call (handle this) (Called f h texts optional result).
Proof.
  destruct u as [source name|target sourceName contractName|targetAst contractName];
    cbn [perform]; unfold parseSource, stitchIntoSource, stitchIntoAst, and_then.
  - destruct (shadow_parse_source _ _ _ _ z) as [result z1].
    exists ParseSource, None, [(source, String.length source)],
      [(c_str_or_null name, String.length name)], result, z1.
    rewrite take_run. split; [destruct result; reflexivity|].
    cbn. repeat split; try discriminate;
      repeat constructor; cbn; apply c_str_or_null_spec.
  - destruct (shadow_stitch_into_source _ _ _ _ _ _ _ z) as [result z1].
    exists StitchIntoSource, (Some (handle this)), [(target, String.length target)],
      [(c_str_or_null sourceName, String.length sourceName);
       (c_str_or_null contractName, String.length contractName)], result, z1.
    rewrite take_run. split; [destruct result; reflexivity|].
    cbn. repeat split; try congruence;
      repeat constructor; cbn; apply c_str_or_null_spec.
  - destruct (shadow_stitch_into_ast _ _ _ _ _ z) as [result z1].
    exists StitchIntoAst, (Some (handle this)), [(targetAst, String.length targetAst)],
      [(c_str_or_null contractName, String.length contractName)], result, z1.
    rewrite take_run. split; [destruct result; reflexivity|].
    cbn. repeat split; try congruence;
      repeat constructor; cbn; apply c_str_or_null_spec.
Qed.

Lemma perform_all_run (this : Shadow) (us : list use) (z : ZigState) :
  let '(outputs, _, t) := perform_all this us z in
  length outputs = length us
  /\ strings_released t
  /\ Forall (well_formed_call (handle this)) t.
Proof.
  revert z. induction us as [|u rest IH]; intro z.
  - cbn. repeat split. constructor.
  - cbn [perform_all]. unfold and_then at 1.
    destruct (perform_run this u z) as (f & h & texts & optional & result & z1 & Hrun & Hwf).
    rewrite Hrun. unfold and_then.
    specialize (IH (match result with Some p => shadow_free_string p z1 | None => z1 end)).
    destruct (perform_all this rest _) as [[outputs z2] t].
    destruct IH as (Hlen & Hrel & Hall).
    cbn. rewrite app_nil_r. split; [congruence|].
    destruct result as [p|]; cbn; repeat split; try assumption;
      repeat (constructor; try assumption); exact I.
Qed.

(** X17. Over the life of a [Shadow] object, whatever the Zig side does:
    the handle is created once, first; every non-null string the Zig side
    returns is released by the very next call, a null one is not released,
    and nothing else is; the handle is destroyed once, last, exactly when
    its creation returned a non-null one; and every use gives an output. *)
Theorem binding_releases_every_string_and_the_handle
  (source : string) (us : list use) (z : ZigState) :
  exists shadow body,
    snd (lifetime source us z)
    = Created (source, String.length source) shadow
      :: body ++ match shadow with Some h => [Destroyed h] | None => [] end
    /\ strings_released body
    /\ length (fst (fst (lifetime source us z))) = length us.
Proof.
  unfold lifetime, and_then, Shadow_new.
  destruct (shadow_init source (String.length source) z) as [shadow z1].
  pose proof (perform_all_run (mkShadow shadow) us z1) as Hall.
  destruct (perform_all (mkShadow shadow) us z1) as [[outputs z2] body].
  destruct Hall as (Hlen & Hrel & _).
  exists shadow, body. unfold Shadow_delete. cbn [handle].
  destruct shadow as [h|]; cbn; rewrite ?app_nil_r; repeat split; assumption.
Qed.

(** X18. Every call the binding makes to the Zig side is well formed: each
    text is passed with its own length, an optional text is passed as the
    null pointer exactly when it is empty (its length is then zero), and a
    member function passes the handle the constructor obtained, also when
    that handle is null. *)
Theorem binding_passes_well_formed_arguments
  (source : string) (us : list use) (z : ZigState) :
  Forall (well_formed_call (fst (shadow_init source (String.length source) z)))
         (snd (lifetime source us z)).
Proof.
  unfold lifetime, and_then, Shadow_new.
  destruct (shadow_init source (String.length source) z) as [shadow z1].
  pose proof (perform_all_run (mkShadow shadow) us z1) as Hall.
  destruct (perform_all (mkShadow shadow) us z1) as [[outputs z2] body].
  destruct Hall as (_ & _ & Hall).
  unfold Shadow_delete. cbn [handle fst] in *.
  destruct shadow as [h|]; cbn; constructor; try reflexivity;
    apply Forall_app; split; try assumption; repeat constructor.
Qed.

(** X19. What a use returns: the empty string when the Zig side returned
    null, otherwise the text at the returned address as it was read before
    the release. *)
Theorem binding_returns_the_text_or_the_empty_string
  (this : Shadow) (u : use) (z : ZigState) :
  exists f h texts optional result z1,
    snd (perform this u z)
    = Called f h texts optional result
      :: match result with Some p => [Released p] | None => [] end
    /\ fst (fst (perform this u z))
       = match result with Some p => c_string_at p z1 | None => EmptyString end
    /\ snd (fst (perform this u z))
       = match result with Some p => shadow_free_string p z1 | None => z1 end.
Proof.
  destruct (perform_run this u z) as (f & h & texts & optional & result & z1 & Hrun & _).
  exists f, h, texts, optional, result, z1. rewrite Hrun. repeat split.
Qed.

End EmscriptenBinding.

(** ** The further theorems at work on scripted runs *)

Section Scripted_checks.
Import Scripted.

Lemma pipeline_parts
    (x : result bool * (Script * list (Error Kind)) * list (event Kind)) :
  x = (fst (fst x), (fst (snd (fst x)), snd (snd (fst x))), snd x).
Proof. now destruct x as [[r [a el]] t]. Qed.

(** The passes of the stand-in only append. *)
Lemma scripted_passes_only_append : passes_only_append.
Proof.
  unfold passes_only_append, extends_list.
  repeat split; intros; cbn in *;
    match goal with
    | Heq : _ = _ |- _ => unfold scripted in Heq; inversion Heq; subst
    end; cbn; first [reflexivity|apply prefix_app_r; reflexivity].
Qed.

(** A used and a fresh context of the stand-in have the same reporter: a
    source with a missing semicolon is parsed alike on both. *)
Lemma parse_depends_on_the_reporter_only_witness :
  errorReporter used = errorReporter fresh
  /\ returned (parse used "missing semicolon") = returned (parse fresh "missing semicolon")
  /\ history (parse used "missing semicolon") = history (parse fresh "missing semicolon")
  /\ option_map errorList (context_after (parse used "missing semicolon"))
     = option_map errorList (context_after (parse fresh "missing semicolon")).
Proof.
  assert (Hrep : errorReporter used = errorReporter fresh) by reflexivity.
  split; [exact Hrep|].
  destruct (parse_depends_on_the_reporter_only
              used fresh (Some "missing semicolon"%string) (Some "A.sol"%string) Hrep)
    as (Hr & Ht & Hl).
  split; [exact Hr|]. split; [exact Ht|]. apply Hl; discriminate.
Defined.

(** The pipeline on a unit no pass objects to returns [true]. *)
Lemma pipeline_returns_true_iff_every_call_succeeded_witness :
  fst (fst (analyzeSourceUnit quiet [])) = Ret true.
Proof.
  destruct (@pipeline_returns_true_iff_every_call_succeeded types solidity
              quiet [] _ _ _ _ (pipeline_parts _))
    as [_ Hiff].
  apply Hiff. split; [vm_compute; reflexivity|].
  apply all_done_spec. vm_compute. reflexivity.
Defined.

(** The pipeline on a unit at which the syntax checker throws an exception
    derived from [std::exception] returns [false]; on a unit at which it
    throws something else, the pipeline is left by that throw. *)
Lemma pipeline_turns_std_exceptions_into_false_witness :
  fst (fst (analyzeSourceUnit (but CheckSyntax (Threw StdException) [] quiet) []))
  = Ret false
  /\ fst (fst (analyzeSourceUnit (but CheckSyntax (Threw NonStdException) [] quiet) []))
     = Throw NonStdException.
Proof.
  split.
  - destruct (@pipeline_turns_std_exceptions_into_false types solidity
                (but CheckSyntax (Threw StdException) [] quiet) [] _ _ _ _
                (pipeline_parts _))
      as [Hstd _].
    apply (Hstd (Event CheckSyntax (Threw StdException) []) StdException).
    + vm_compute. right. left. reflexivity.
    + reflexivity.
    + reflexivity.
  - destruct (@pipeline_turns_std_exceptions_into_false types solidity
                (but CheckSyntax (Threw NonStdException) [] quiet) [] _ _ _ _
                (pipeline_parts _))
      as (_ & Hother & _).
    apply (Hother (Event CheckSyntax (Threw NonStdException) []) NonStdException).
    + vm_compute. right. left. reflexivity.
    + reflexivity.
    + reflexivity.
Defined.

(** The run on a source with an invalid override ends with type checking. *)
Lemma degraded_run_ends_with_type_checking_witness :
  map ev_call (history run_bad_override) = calls_through_type_checking.
Proof.
  assert (Hin : In (entry 13 run_bad_override) (history run_bad_override)).
  { apply entry_in. vm_compute. lia. }
  assert (Htier : tier_of (ev_call (entry 13 run_bad_override)) = AccumulateOnFailure).
  { vm_compute. reflexivity. }
  assert (Hfail : ev_outcome (entry 13 run_bad_override) = Failed).
  { vm_compute. reflexivity. }
  assert (Hnoabort : forall e', In e' (history run_bad_override) ->
                                tier_of (ev_call e') = AbortOnFailure ->
                                ev_outcome e' <> Failed).
  { apply no_abort_failure_spec. vm_compute. reflexivity. }
  assert (Hnothrow : forall e' x, In e' (history run_bad_override) ->
                                  ev_outcome e' <> Threw x).
  { apply no_fault_spec. vm_compute. reflexivity. }
  exact (degraded_run_ends_with_type_checking
           (Some used) (Some "bad override"%string) (Some "A.sol"%string)
           (entry 13 run_bad_override) Hin Htier Hfail Hnoabort Hnothrow).
Defined.

(** In the run on a source with two type errors, each entry of the history
    shows a list that the later ones, and the context, extend. *)
Lemma diagnostics_only_accumulate_witness :
  passes_only_append
  /\ exists c1,
       context_after run_two_type_errors = Some c1
       /\ forall pre e post,
            history run_two_type_errors = pre ++ e :: post ->
            (forall e', In e' pre -> ev_errors e' `prefix_of` ev_errors e)
            /\ ev_errors e `prefix_of` errorList c1.
Proof.
  split; [exact scripted_passes_only_append|].
  exact (diagnostics_only_accumulate
           used "two type errors" "A.sol" _ _ _
           scripted_passes_only_append (run_parts run_two_type_errors)).
Defined.

(** The loop over two contracts, on a unit at which the creation-graph
    builder throws, ends at the first and leaves the unit as it was. *)
Lemma call_graph_loop_ends_at_the_first_throw_witness :
  assignCallGraphs ([] ++ [tt; tt]) (but BuildCallGraphs (Threw StdException) [] quiet)
  = (Throw StdException, but BuildCallGraphs (Threw StdException) [] quiet).
Proof.
  destruct (@call_graph_loop_ends_at_the_first_throw types solidity
              [] tt [tt]
              (but BuildCallGraphs (Threw StdException) [] quiet)
              (but BuildCallGraphs (Threw StdException) [] quiet) eq_refl)
    as [Hthrow _].
  apply Hthrow. reflexivity.
Defined.

(** A second diagnostic appended to the list of the used context adds its
    line to the text of the query. *)
Lemma query_text_grows_with_the_list_witness :
  sol_parser_get_errors (Some (@mkContext types [] [missing_semicolon; undeclared] tt))
  = Some (("SyntaxError: Expected ';' but got '}'" +:+ newline)
          +:+ fold_right String.append EmptyString
                (map (fun error => formatErrorType (type error) +:+ ": "
                                   +:+ what error +:+ newline) [undeclared])).
Proof.
  apply (query_text_grows_with_the_list
           used (@mkContext types [] [missing_semicolon; undeclared] tt) [undeclared]
           ("SyntaxError: Expected ';' but got '}'" +:+ newline)).
  - reflexivity.
  - vm_compute. reflexivity.
Defined.

(** The earlier query on the used context of the stand-in, whose type names
    are the formatted names. *)
Lemma earlier_query_agrees_witness :
  Earlier.sol_parser_get_errors (Some used) = sol_parser_get_errors (Some used).
Proof.
  apply (earlier_query_agrees used). intros error _. reflexivity.
Defined.

(** The earlier Parse on a plain source, with the codec of the stand-in. *)
Lemma earlier_parse_agrees_witness :
  fst (Earlier.sol_parser_parse (Some used) (Some "plain"%string) (Some "A.sol"%string))
  = fst (parse used "plain").
Proof.
  apply (earlier_parse_agrees
           (Some used) (Some "plain"%string) (Some "A.sol"%string)).
  intros sourceIndices ast. cbn.
  destruct (reply ast ToJson _ _); reflexivity.
Defined.

End Scripted_checks.

(** ** The pipeline against the succession of its stages *)

Section StagesFacts.
Context `{Solidity}.

Lemma stages_are_the_pipeline : map fst stages = pipeline.
Proof. reflexivity. Qed.

(** [analyzeSourceUnit] returns [true] exactly when every stage succeeds on
    what the stage before it left, and then hands back the AST and the list
    as the last stage left them. *)
Lemma analyzeSourceUnit_stages (_ast : SourceUnit) (_errors : ErrorList) :
  match every_stage_succeeds stages (mkFrame _ast _errors newLocals) with
  | Some fr1 =>
      fst (analyzeSourceUnit _ast _errors) = (Ret true, (f_ast fr1, f_errors fr1))
  | None => fst (fst (analyzeSourceUnit _ast _errors)) <> Ret true
  end.
Proof.
  unfold analyzeSourceUnit, analyzeSourceUnit_try, try_catch, bind, pass, invoke, ret,
    analyzeSourceUnit_catch, stages, every_stage_succeeds, completes,
    on_ast, on_locals, on_reporter.
  cbn.
  repeat (step; split_bools; cbn).
  all: first [reflexivity|discriminate|idtac].
Qed.

End StagesFacts.

(** ** Success of Analyze, and faults at the interface *)

Section Success.
Context `{Solidity}.
Implicit Types (ctx : handle) (r : result (option string)) (t : list (event ErrorType)).

(** Analyze, with non-null arguments, returns a document exactly when the
    text parses, a unit is imported under the name, and every stage
    succeeds on it; the document is the printed export of the unit as the
    last stage left it. *)
Lemma analyze_document (c : SolParserContext) (json name doc : string) :
  fst (fst (sol_analyze_parsed_ast_json (Some c) (Some json) (Some name))) = Ret (Some doc)
  <-> exists astJson asts ast fr1 analyzedJson,
        parse_json json = Ret astJson
        /\ jsonToSourceUnit {[ name := astJson ]} = Ret asts
        /\ asts !! name = Some (Some ast)
        /\ every_stage_succeeds stages (mkFrame ast [] newLocals) = Some fr1
        /\ toJson AnalysisSuccessful {[ name := 0 ]} (f_ast fr1) = Ret analyzedJson
        /\ jsonPrettyPrint analyzedJson = Ret doc.
Proof.
  rewrite analyze_run. split.
  - destruct (parse_json json) as [astJson|x] eqn:Hparse; [|discriminate].
    destruct (jsonToSourceUnit {[name := astJson]}) as [asts|x] eqn:Himport;
      [|discriminate].
    cbv zeta. destruct (imported asts name) as [ast|] eqn:Himp; [|discriminate].
    apply imported_spec in Himp.
    pose proof (analyzeSourceUnit_stages ast []) as Hs.
    destruct (analyzeSourceUnit ast []) as [[r [ast1 el]] t] eqn:Hrun.
    destruct r as [[|]|x]; try discriminate.
    destruct (every_stage_succeeds stages (mkFrame ast [] newLocals)) as [fr1|] eqn:Hst;
      cbn in Hs; [|congruence].
    injection Hs as -> ->.
    destruct (toJson AnalysisSuccessful {[name := 0]} (f_ast fr1))
      as [analyzedJson|x] eqn:Hj; [|discriminate].
    destruct (jsonPrettyPrint analyzedJson) as [d|x] eqn:Hp; [|discriminate].
    cbn. intros [= <-]. exists astJson, asts, ast, fr1, analyzedJson.
    repeat split; try assumption; reflexivity.
  - intros (astJson & asts & ast & fr1 & analyzedJson
            & -> & -> & Hl & Hst & Hj & Hp).
    apply imported_spec in Hl. cbv zeta. rewrite Hl.
    pose proof (analyzeSourceUnit_stages ast []) as Hs. rewrite Hst in Hs.
    destruct (analyzeSourceUnit ast []) as [[r [ast1 el]] t].
    cbn in Hs. injection Hs as -> -> ->. rewrite Hj, Hp. reflexivity.
Qed.

(** C4. Analyze returns a document exactly when every stage of the pipeline
    completed without reporting failure and without a fault, on a unit
    imported from the text: the arguments are not null, the text parses as
    JSON, the import yields a unit under the name, every stage, run in turn
    on what the stage before it left, succeeds, and the export and its
    printing do not throw.  The document is the pretty-printed export, at
    stage [AnalysisSuccessful], of the unit as the last stage left it.  In
    every other case Analyze returns null.  Read off the history: a
    document is returned exactly when every call of the pipeline was made
    and ended without reporting failure and no call threw, and a run in
    which a call reported failure, or threw, returns null. *)
Theorem analyze_returns_a_document_iff_nothing_failed
    ctx (json name : option string) r (h : handle) t :
  sol_analyze_parsed_ast_json ctx json name = (r, h, t) ->
  (forall doc,
      r = Ret (Some doc)
      <-> exists c text nameStr astJson asts ast fr1 analyzedJson,
            ctx = Some c /\ json = Some text /\ name = Some nameStr
            /\ parse_json text = Ret astJson
            /\ jsonToSourceUnit {[ nameStr := astJson ]} = Ret asts
            /\ asts !! nameStr = Some (Some ast)
            /\ every_stage_succeeds stages (mkFrame ast [] newLocals) = Some fr1
            /\ toJson AnalysisSuccessful {[ nameStr := 0 ]} (f_ast fr1) = Ret analyzedJson
            /\ jsonPrettyPrint analyzedJson = Ret doc)
  /\ ((forall doc, r <> Ret (Some doc)) -> r = Ret None)
  /\ ((exists doc, r = Ret (Some doc)) <->
      (forall c, In c pipeline ->
                 exists e, In e t /\ ev_call e = c /\ ev_outcome e = Done)
      /\ (forall e, In e t -> ev_outcome e <> Failed)
      /\ (forall e x, In e t -> ev_outcome e <> Threw x))
  /\ (forall e, In e t -> ev_outcome e = Failed -> r = Ret None)
  /\ (forall e x, In e t -> ev_outcome e = Threw x -> r = Ret None).
Proof.
  intros Hrun.
  destruct (document_iff_the_history_is_all_done _ _ _ _ _ _ Hrun)
    as (Hhistory & _ & Hfailed & Hthrew).
  split; [|split; [|split; [exact Hhistory|split; [exact Hfailed|exact Hthrew]]]].
  - intros doc.
    destruct ctx as [c|], json as [text|], name as [nameStr|];
      try (cbn in Hrun; injection Hrun as <- _ _; split; [discriminate|];
           intros (c' & text' & nameStr' & astJson & asts & ast & fr1 & analyzedJson
                   & Hc & Ht & Hn & _); discriminate).
    assert (Hr : r = fst (fst (sol_analyze_parsed_ast_json
                                 (Some c) (Some text) (Some nameStr))))
      by now rewrite Hrun.
    rewrite Hr, analyze_document. split.
    + intros (astJson & asts & ast & fr1 & analyzedJson & Hall).
      exists c, text, nameStr, astJson, asts, ast, fr1, analyzedJson. auto.
    + intros (c' & text' & nameStr' & astJson & asts & ast & fr1 & analyzedJson
              & _ & [= <-] & [= <-] & Hall).
      exists astJson, asts, ast, fr1, analyzedJson. exact Hall.
  - intros Hnone.
    destruct (faults_derived_from_std_exception_do_not_escape ctx json name)
      as [[v Hv] _].
    rewrite Hrun in Hv. cbn in Hv. subst r.
    destruct v as [doc|]; [|reflexivity]. now destruct (Hnone doc).
Qed.


End Success.

(** ** These two at work on scripted runs *)

Section Scripted_success.
Import Scripted.

(** The run on a plain source returns the export of the unit as the stages
    left it; in the run on a source with two type errors a stage reports
    failure, and null is returned. *)
Lemma analyze_returns_a_document_iff_nothing_failed_witness :
  returned run_plain = Ret (Some "{ analysed }"%string)
  /\ returned run_two_type_errors = Ret None.
Proof.
  split.
  - destruct (analyze_returns_a_document_iff_nothing_failed
                (Some fresh) (Some "plain"%string) (Some "A.sol"%string)
                (returned run_plain) (context_after run_plain) (history run_plain)
                (run_parts run_plain)) as [Hiff _].
    apply Hiff.
    exists fresh, "plain"%string, "A.sol"%string, "plain"%string,
      ({[ "A.sol"%string := Some quiet ]} : gmap string (option Script)),
      quiet, (@mkFrame types quiet [] tt), "{ analysed }"%string.
    repeat split; vm_compute; reflexivity.
  - destruct (analyze_returns_a_document_iff_nothing_failed
                (Some used) (Some "two type errors"%string) (Some "A.sol"%string)
                (returned run_two_type_errors) (context_after run_two_type_errors)
                (history run_two_type_errors) (run_parts run_two_type_errors))
      as (Hiff & Hnull & _).
    apply Hnull. intros doc Hdoc.
    apply Hiff in Hdoc
      as (c & text & nameStr & astJson & asts & ast & fr1 & analyzedJson
          & _ & [= <-] & [= <-] & Hj & Hi & Hl & Hs & _).
    vm_compute in Hj. injection Hj as <-.
    vm_compute in Hi. injection Hi as <-.
    vm_compute in Hl. injection Hl as <-.
    vm_compute in Hs. discriminate Hs.
Defined.


End Scripted_success.
